(** * Source pattern migrator: the three rewriting scripts

    A shallow embedding of [scripts/update_audit_logging.py],
    [scripts/update_auth_patterns.py] and [scripts/update_auth_patterns_v2.py].

    The scripts read a file, test substrings, substitute regular-expression
    matches and write the file back.  Python's [str] is modelled as a list of
    characters with code points below 256, the [re] functions the scripts call
    ([search], [sub] with and without [count], with a template or a callable)
    as a backtracking matcher with leftmost-first, greedy semantics, and the
    file system and console as an explicit state with exceptions. *)

From Stdlib Require Import Ascii String DecimalString List Arith Lia Bool.
Import ListNotations.

Set Implicit Arguments.

(* ================================================================== *)
(** ** Text *)

Definition str := list ascii.

(** [T "abc"] is the text of a literal. *)
Definition T (s : string) : str := list_ascii_of_string s.

Definition LF : ascii := ascii_of_nat 10.
Definition DQ : ascii := ascii_of_nat 34.
Definition SQ : ascii := ascii_of_nat 39.

Definition str_eqb (a b : str) : bool :=
  if list_eq_dec ascii_dec a b then true else false.

(** [strip_prefix p s] is [Some r] when [s = p ++ r]. *)
Fixpoint strip_prefix (p s : str) : option str :=
  match p with
  | [] => Some s
  | c :: p' =>
      match s with
      | [] => None
      | d :: s' => if Ascii.eqb c d then strip_prefix p' s' else None
      end
  end.

(** Python's [sub in s]. *)
Fixpoint contains (sub s : str) : bool :=
  match strip_prefix sub s with
  | Some _ => true
  | None =>
      match s with
      | [] => false
      | _ :: s' => contains sub s'
      end
  end.

(** Python's [s.replace(old, new)] for a non-empty [old] (the only use in the
    scripts): every non-overlapping occurrence, left to right.  [skip] counts
    the characters of the occurrence just replaced that are still to be
    dropped. *)
Fixpoint replace_go (old new s : str) (skip : nat) : str :=
  match s with
  | [] => []
  | c :: s' =>
      match skip with
      | S k => replace_go old new s' k
      | O =>
          match strip_prefix old s with
          | Some _ => new ++ replace_go old new s' (length old - 1)
          | None => c :: replace_go old new s' 0
          end
      end
  end.

Definition str_replace (old new s : str) : str := replace_go old new s 0.

(** Number of non-overlapping occurrences of [sub] in [s] (Python's
    [s.count(sub)]), with the same [skip] discipline. *)
Fixpoint count_go (sub s : str) (skip : nat) : nat :=
  match s with
  | [] => 0
  | _ :: s' =>
      match skip with
      | S k => count_go sub s' k
      | O =>
          match strip_prefix sub s with
          | Some _ => S (count_go sub s' (length sub - 1))
          | None => count_go sub s' 0
          end
      end
  end.

Definition str_count (sub s : str) : nat := count_go sub s 0.

(** Character classes of [re] on [str] patterns, for code points below 256:
    [\s] is [str.isspace], [\d] the decimal digits, [\w] the alphanumerics
    and the underscore. *)
Definition in_range (lo hi n : nat) : bool := (lo <=? n) && (n <=? hi).

Definition is_space (c : ascii) : bool :=
  let n := nat_of_ascii c in
  in_range 9 13 n || in_range 28 32 n || (n =? 133) || (n =? 160).

Definition is_digit (c : ascii) : bool := in_range 48 57 (nat_of_ascii c).

Definition is_word (c : ascii) : bool :=
  let n := nat_of_ascii c in
  in_range 48 57 n || in_range 65 90 n || (n =? 95) || in_range 97 122 n
  || (n =? 170) || in_range 178 179 n || (n =? 181) || in_range 185 186 n
  || in_range 188 190 n || in_range 192 214 n || in_range 216 246 n
  || in_range 248 255 n.

(** Python's [s.strip()]. *)
Fixpoint lstrip (s : str) : str :=
  match s with
  | c :: s' => if is_space c then lstrip s' else s
  | [] => []
  end.

Definition strip (s : str) : str := rev (lstrip (rev (lstrip s))).

(** Python's [str(n)] for a non-negative integer. *)
Definition str_of_nat (n : nat) : str :=
  T (NilZero.string_of_uint (Nat.to_uint n)).

(* ================================================================== *)
(** ** Regular expressions: the constructs the scripts use *)

Inductive charset : Type :=
| CsChars (cs : list ascii)      (* [abc] *)
| CsSpace                        (* \s *)
| CsWord                         (* \w *)
| CsDigit                        (* \d *)
| CsNot (cs : list ascii).       (* [^abc] *)

Definition mem_ascii (c : ascii) (cs : list ascii) : bool :=
  existsb (Ascii.eqb c) cs.

Definition cs_mem (cs : charset) (c : ascii) : bool :=
  match cs with
  | CsChars l => mem_ascii c l
  | CsSpace => is_space c
  | CsWord => is_word c
  | CsDigit => is_digit c
  | CsNot l => negb (mem_ascii c l)
  end.

Inductive regex : Type :=
| Eps
| Lit (c : ascii)                 (* one literal character *)
| Cls (cs : charset)              (* one character of a class *)
| Cat (r1 r2 : regex)             (* r1 r2 *)
| Alt (r1 r2 : regex)             (* r1|r2, r1 tried first *)
| Opt (r : regex)                 (* r?, greedy *)
| Rep (lo : nat) (cs : charset)   (* cs{lo,}, greedy: \s*  [^}]+  \d+ *)
| Grp (i : nat) (r : regex).      (* capturing group number i *)

(** The groups set so far, the most recent binding first. *)
Definition groups := list (nat * str).

Fixpoint group_lookup (i : nat) (g : groups) : option str :=
  match g with
  | [] => None
  | (j, t) :: g' => if i =? j then Some t else group_lookup i g'
  end.

Section Matcher.
Variable R : Type.

(** Greedy repetition of one class: the longest run first, then shorter
    ones, never fewer than [lo] characters. *)
Fixpoint m_rep (cs : charset) (lo : nat) (s : str) (g : groups)
    (k : str -> groups -> option R) : option R :=
  match s with
  | c :: s' =>
      if cs_mem cs c then
        match m_rep cs (pred lo) s' g k with
        | Some x => Some x
        | None => match lo with O => k s g | S _ => None end
        end
      else match lo with O => k s g | S _ => None end
  | [] => match lo with O => k s g | S _ => None end
  end.

(** [m r s g k]: match [r] at the head of [s], then hand the rest of the
    text and the groups to the continuation [k]; a [None] from [k] makes the
    matcher backtrack into the next alternative. *)
Fixpoint m (r : regex) (s : str) (g : groups)
    (k : str -> groups -> option R) : option R :=
  match r with
  | Eps => k s g
  | Lit c =>
      match s with
      | d :: s' => if Ascii.eqb c d then k s' g else None
      | [] => None
      end
  | Cls cs =>
      match s with
      | d :: s' => if cs_mem cs d then k s' g else None
      | [] => None
      end
  | Cat r1 r2 => m r1 s g (fun s' g' => m r2 s' g' k)
  | Alt r1 r2 =>
      match m r1 s g k with
      | Some x => Some x
      | None => m r2 s g k
      end
  | Opt r1 =>
      match m r1 s g k with
      | Some x => Some x
      | None => k s g
      end
  | Rep lo cs => m_rep cs lo s g k
  | Grp i r1 =>
      m r1 s g
        (fun s' g' => k s' ((i, firstn (length s - length s') s) :: g'))
  end.
End Matcher.

(** A match object: the text between the start of the search and the match,
    the matched text ([group(0)]), the text after it, and the groups. *)
Record rmatch : Type := MkMatch {
  m_pre : str;
  m_text : str;
  m_rest : str;
  m_groups : groups
}.

(** [match.group(i)]; a group that did not take part is the empty text here
    (every group of the scripts' patterns takes part in every match). *)
Definition group (mt : rmatch) (i : nat) : str :=
  match i with
  | O => m_text mt
  | _ => match group_lookup i (m_groups mt) with Some t => t | None => [] end
  end.

(** One attempt at the head of [s].  With [adv] set an empty match is
    refused (the matcher's [must_advance]). *)
Definition match_here (r : regex) (s : str) (adv : bool)
  : option (str * groups) :=
  m r s []
    (fun s' g =>
       if adv && (length s' =? length s) then None else Some (s', g)).

(** The leftmost match in [s]: every start position in turn, the end of the
    text included.  [pre] is the text already passed over, reversed.  [adv]
    holds for the first position only. *)
Fixpoint search_go (r : regex) (pre : str) (s : str) (adv : bool)
  : option rmatch :=
  match match_here r s adv with
  | Some (s', g) =>
      Some (MkMatch (rev pre) (firstn (length s - length s') s) s' g)
  | None =>
      match s with
      | [] => None
      | c :: s' => search_go r (c :: pre) s' false
      end
  end.

(** [re.search(r, s)]. *)
Definition search (r : regex) (s : str) : option rmatch :=
  search_go r [] s false.

(** [pattern.subn(repl, s, count)] with a callable [repl]; [count = 0] means
    no limit.  [n] is the number of substitutions made so far, [adv] holds
    when the previous match was empty.  The loop of the library runs until
    the search fails; here it is cut by [fuel], which [subn] sets high enough
    (see [subn_go_fuel]). *)
Fixpoint subn_go (fuel : nat) (r : regex) (repl : rmatch -> str)
    (count : nat) (s : str) (adv : bool) (n : nat) : str * nat :=
  match fuel with
  | O => (s, n)
  | S fuel' =>
      if negb (count =? 0) && (count <=? n) then (s, n)
      else
        match search_go r [] s adv with
        | None => (s, n)
        | Some mt =>
            let (out, n') :=
              subn_go fuel' r repl count (m_rest mt)
                (length (m_text mt) =? 0) (S n) in
            (m_pre mt ++ repl mt ++ out, n')
        end
  end.

Definition subn (r : regex) (repl : rmatch -> str) (s : str) (count : nat)
  : str * nat :=
  subn_go (2 * length s + 2) r repl count s false 0.

(** [re.sub] and [pattern.sub]. *)
Definition sub (r : regex) (repl : rmatch -> str) (s : str) (count : nat)
  : str :=
  fst (subn r repl s count).

(** [pattern.finditer(s)]: the matches one left-to-right scan finds. *)
Fixpoint finditer_go (fuel : nat) (r : regex) (s : str) (adv : bool)
  : list rmatch :=
  match fuel with
  | O => []
  | S fuel' =>
      match search_go r [] s adv with
      | None => []
      | Some mt =>
          mt :: finditer_go fuel' r (m_rest mt) (length (m_text mt) =? 0)
      end
  end.

Definition finditer (r : regex) (s : str) : list rmatch :=
  finditer_go (2 * length s + 2) r s false.

(** Regex building blocks. *)
Fixpoint lits (s : str) : regex :=
  match s with
  | [] => Eps
  | [c] => Lit c
  | c :: s' => Cat (Lit c) (lits s')
  end.

Definition lit (s : string) : regex := lits (T s).

Fixpoint seq (rs : list regex) : regex :=
  match rs with
  | [] => Eps
  | [r] => r
  | r :: rs' => Cat r (seq rs')
  end.

Definition ws : regex := Rep 0 CsSpace.        (* \s* *)
Definition nl : regex := Lit LF.               (* \n *)
(** A single or a double quote character. *)
Definition quote : regex := Cls (CsChars [SQ; DQ]).

(** A parsed replacement template: literal text and group references. *)
Inductive titem : Type :=
| TLit (t : str)
| TGroup (i : nat).

Fixpoint expand (tpl : list titem) (mt : rmatch) : str :=
  match tpl with
  | [] => []
  | TLit t :: tpl' => t ++ expand tpl' mt
  | TGroup i :: tpl' => group mt i ++ expand tpl' mt
  end.

(* ================================================================== *)
(** ** Files, console and exceptions *)

(** What a run does to the outside: [EvWrite p t] is one call of
    [open(p, 'w')] with, when the file opens, [f.write(t)]: the write the
    script sets out to make (what reaches the file is in the world the call
    leaves); [EvPrint l] is one call of [print(l)].  Console text is kept
    as the bytes written (UTF-8). *)
Inductive event : Type :=
| EvWrite (path : str) (content : str)
| EvPrint (line : str).

(** The file system: the files with their text, and the paths on which
    reading or writing raises, with the text of the exception.  For a path
    on which writing raises, [w_write_kept] tells how far the write gets:
    [None] when [open(p, 'w')] itself raises, so that the file stays as it
    is; [Some k] when [open] succeeds, which empties the file, and the
    exception comes from [write], the flush or [close], after the first [k]
    characters of the text have reached the file. *)
Record world : Type := MkWorld {
  w_files : list (str * str);
  w_read_err : str -> option str;
  w_write_err : str -> option str;
  w_write_kept : str -> option nat
}.

Fixpoint lookup (p : str) (fs : list (str * str)) : option str :=
  match fs with
  | [] => None
  | (q, t) :: fs' => if str_eqb p q then Some t else lookup p fs'
  end.

Definition store (p t : str) (w : world) : world :=
  MkWorld ((p, t) :: w_files w) (w_read_err w) (w_write_err w)
    (w_write_kept w).

(** A computation ends with a value, with a raised exception, or not at
    all ([Div]: a loop that ran out of its bound). *)
Inductive outcome (A : Type) : Type :=
| Val (a : A)
| Exc (msg : str)
| Div.

Arguments Exc {A} msg.
Arguments Div {A}.

Definition io (A : Type) : Type := world -> outcome A * world * list event.

Definition ret {A} (a : A) : io A := fun w => (Val a, w, []).

Definition bind {A B} (c : io A) (f : A -> io B) : io B :=
  fun w =>
    match c w with
    | (Val a, w1, t1) =>
        match f a w1 with
        | (o, w2, t2) => (o, w2, t1 ++ t2)
        end
    | (Exc e, w1, t1) => (Exc e, w1, t1)
    | (Div, w1, t1) => (Div, w1, t1)
    end.

Notation "x <- c ;; k" := (bind c (fun x => k))
  (at level 61, c at next level, right associativity).
Notation "c ;;; k" := (bind c (fun _ => k))
  (at level 61, right associativity).

(** [try: c except Exception as e: h e]. *)
Definition try_except {A} (c : io A) (h : str -> io A) : io A :=
  fun w =>
    match c w with
    | (Exc e, w1, t1) =>
        match h e w1 with
        | (o, w2, t2) => (o, w2, t1 ++ t2)
        end
    | r => r
    end.

Definition diverge {A} : io A := fun w => (Div, w, []).

Definition print (line : str) : io unit :=
  fun w => (Val tt, w, [EvPrint line]).

Definition no_such_file (p : str) : str :=
  T "[Errno 2] No such file or directory: '" ++ p ++ T "'".

(** [with open(p, 'r') as f: f.read()]. *)
Definition read_file (p : str) : io str :=
  fun w =>
    match w_read_err w p with
    | Some e => (Exc e, w, [])
    | None =>
        match lookup p (w_files w) with
        | Some t => (Val t, w, [])
        | None => (Exc (no_such_file p), w, [])
        end
    end.

(** What a write of [t] to [p] that raises leaves behind: the file
    system as it is when [open] raises; otherwise the file, emptied by
    [open], with the part of [t] that was written. *)
Definition failed_write (p t : str) (w : world) : world :=
  match w_write_kept w p with
  | Some k => store p (firstn k t) w
  | None => w
  end.

(** [with open(p, 'w') as f: f.write(t)]. *)
Definition write_file (p t : str) : io unit :=
  fun w =>
    match w_write_err w p with
    | Some e => (Exc e, failed_write p t w, [EvWrite p t])
    | None => (Val tt, store p t w, [EvWrite p t])
    end.

(** [os.path.exists(p)]. *)
Definition path_exists (p : str) : io bool :=
  fun w =>
    (Val (match lookup p (w_files w) with Some _ => true | None => false end),
     w, []).

(** The writes of a trace. *)
Fixpoint writes (t : list event) : list (str * str) :=
  match t with
  | [] => []
  | EvWrite p c :: t' => (p, c) :: writes t'
  | EvPrint _ :: t' => writes t'
  end.

(** The printed lines of a trace. *)
Fixpoint prints (t : list event) : list str :=
  match t with
  | [] => []
  | EvWrite _ _ :: t' => prints t'
  | EvPrint l :: t' => l :: prints t'
  end.

(** The marks the scripts print, as UTF-8 bytes. *)
Definition CHECK_MARK : str := map ascii_of_nat [226; 156; 133].
Definition CROSS_MARK : str := map ascii_of_nat [226; 157; 140].
Definition WARNING_SIGN : str := map ascii_of_nat [226; 154; 160; 239; 184; 143].
Definition ARROWS : str := map ascii_of_nat [240; 159; 148; 132].
Definition SPARKLES : str := map ascii_of_nat [226; 156; 168].

(** The handler all three scripts share:
    [print(f"<cross> Error updating {filepath}: {e}"); return False]. *)
Definition report_error (filepath e : str) : io bool :=
  print (CROSS_MARK ++ T " Error updating " ++ filepath ++ T ": " ++ e) ;;;
  ret false.

(** The replacement text of every authorization rule. *)
Definition new_auth_code : str :=
  T "// Authorization check" ++ [LF] ++
  T "    const { error, session } = await requireAdminRole();" ++ [LF] ++
  T "    if (error) return error;".

(* ================================================================== *)
(** ** scripts/update_audit_logging.py *)

Module AuditLogging.

Definition pattern : regex :=
  seq [lit "// Log the action (skip if audit log fails)"; ws; nl; ws;
       lit "try {"; ws; nl; ws;
       lit "await prisma.auditLog.create({";
       Grp 1 (seq [Rep 1 (CsNot ["}"%char]); lit "data:"; ws; lit "{";
                   Rep 1 (CsNot ["}"%char]); lit "}";
                   Rep 0 (CsNot ["}"%char])]);
       lit "});"; ws; nl; ws;
       lit "} catch ("; Rep 1 (CsNot [")"%char]); lit ") {"; ws; nl; ws;
       lit "console.warn("; Rep 1 (CsNot [")"%char]); lit ");";
       Rep 0 (CsNot ["}"%char]); nl; ws; lit "}"].

Definition user_id_re : regex :=
  seq [lit "userId:"; ws; Grp 1 (Rep 1 (CsNot [","%char; LF]))].
Definition action_re : regex :=
  seq [lit "action:"; ws; quote; Grp 1 (Rep 1 CsWord); quote].
Definition resource_re : regex :=
  seq [lit "resource:"; ws; quote; Grp 1 (Rep 1 CsWord); quote].
Definition resource_id_re : regex :=
  seq [lit "resourceId:"; ws; Grp 1 (Rep 1 (CsNot [","%char; LF]))].
Definition details_re : regex :=
  seq [lit "details:"; ws;
       Grp 1 (seq [lit "{"; Rep 1 (CsNot ["}"%char]); lit "}"])].

(** The f-string of the new call. *)
Definition new_call (user_id action resource resource_id details : str)
  : str :=
  T "// Audit log" ++ [LF] ++
  T "    await logAudit({" ++ [LF] ++
  T "      userId: " ++ user_id ++ T "," ++ [LF] ++
  T "      action: '" ++ action ++ T "'," ++ [LF] ++
  T "      resource: '" ++ resource ++ T "'," ++ [LF] ++
  T "      resourceId: " ++ resource_id ++ T "," ++ [LF] ++
  T "      details: " ++ details ++ T "," ++ [LF] ++
  T "      ipAddress: request.headers.get('x-forwarded-for') || request.ip || 'unknown'," ++ [LF] ++
  T "      userAgent: request.headers.get('user-agent') || 'unknown'," ++ [LF] ++
  T "    });".

Definition replace_audit_log (mt : rmatch) : str :=
  let data_content := group mt 1 in
  let user_id_match := search user_id_re data_content in
  let action_match := search action_re data_content in
  let resource_match := search resource_re data_content in
  let resource_id_match := search resource_id_re data_content in
  let details_match := search details_re data_content in
  match user_id_match, action_match, resource_match with
  | Some um, Some am, Some rm =>
      let user_id := strip (group um 1) in
      let action := group am 1 in
      let resource := group rm 1 in
      let resource_id :=
        match resource_id_match with
        | Some im => strip (group im 1)
        | None => T "undefined"
        end in
      let details :=
        match details_match with
        | Some dm => strip (group dm 1)
        | None => T "{}"
        end in
      new_call user_id action resource resource_id details
  | _, _, _ => group mt 0
  end.

Definition anchor : str := T "from '@/lib/db/prisma';".
Definition import_line : str :=
  T "import { logAudit } from '@/lib/audit/logger';".

(** Step 1: add the logAudit import if not present. *)
Definition step1 (content : str) (changes_made : nat) : str * nat :=
  if negb (contains (T "logAudit") content) then
    if contains anchor content then
      (str_replace anchor (anchor ++ [LF] ++ import_line) content,
       changes_made + 1)
    else (content, changes_made)
  else (content, changes_made).

(** Step 2: replace the audit log blocks. *)
Definition step2 (content : str) (changes_made : nat) : str * nat :=
  let new_content := sub pattern replace_audit_log content 0 in
  if negb (str_eqb new_content content) then (new_content, changes_made + 1)
  else (content, changes_made).

Definition update_file (filepath : str) : io bool :=
  try_except
    (content <- read_file filepath ;;
     let original_content := content in
     let changes_made := 0 in
     if negb (contains (T "prisma.auditLog.create") content) then ret false
     else
       let '(content, changes_made) := step1 content changes_made in
       let '(content, changes_made) := step2 content changes_made in
       if (0 <? changes_made) && negb (str_eqb content original_content)
       then
         write_file filepath content ;;;
         print (CHECK_MARK ++ T " Updated: " ++ filepath ++ T " (" ++
                str_of_nat changes_made ++ T " change(s))") ;;;
         ret true
       else ret false)
    (report_error filepath).

(** The first loop of [main]: the files that can be read and contain the
    legacy call; [except: pass] drops the others. *)
Fixpoint find_files (paths : list str) : io (list str) :=
  match paths with
  | [] => ret []
  | filepath :: paths' =>
      hit <- try_except
               (content <- read_file filepath ;;
                ret (contains (T "prisma.auditLog.create") content))
               (fun _ => ret false) ;;
      rest <- find_files paths' ;;
      ret (if hit then filepath :: rest else rest)
  end.

(** The second loop of [main]. *)
Fixpoint update_all (paths : list str) (updated_count : nat) : io nat :=
  match paths with
  | [] => ret updated_count
  | filepath :: paths' =>
      updated <- update_file filepath ;;
      update_all paths' (if updated then updated_count + 1 else updated_count)
  end.

(** [admin_routes] is the result of the [glob] at import time. *)
Definition main (admin_routes : list str) : io unit :=
  files_with_audit <- find_files admin_routes ;;
  print (ARROWS ++ T " Found " ++ str_of_nat (length files_with_audit) ++
         T " files with audit logging...") ;;;
  updated_count <- update_all files_with_audit 0 ;;
  print ([LF] ++ SPARKLES ++ T " Complete! Updated " ++
         str_of_nat updated_count ++ T "/" ++
         str_of_nat (length files_with_audit) ++ T " files").

End AuditLogging.

(* ================================================================== *)
(** ** scripts/update_auth_patterns.py *)

Module AuthPatterns.

Definition old_import1 : regex :=
  seq [lit "import { getServerSession } from 'next-auth';"; nl].
Definition old_import2 : regex :=
  seq [lit "import { authOptions } from '@/lib/auth/config';"; nl].

Definition next_import : regex :=
  Grp 1 (seq [lit "import { ";
              Alt (lit "NextRequest, NextResponse")
                  (lit "NextResponse, NextRequest");
              lit " } from 'next/server';"]).

Definition import_line : str :=
  T "import { requireAdminRole } from '@/lib/auth/authorization';".

(** The template of the import substitution: group 1, a line feed, the
    import line. *)
Definition import_template : list titem :=
  [TGroup 1; TLit ([LF] ++ import_line)].

(** Pattern 1: standard format. *)
Definition pattern1 : regex :=
  seq [lit "const session = await getServerSession(authOptions);"; ws;
       lit "if ("; ws;
       lit "!session?.user ||"; ws;
       lit "(session.user.role !== UserRole.ADMIN &&"; ws;
       lit "session.user.role !== UserRole.STAFF)"; ws;
       lit ") {"; ws;
       lit "return NextResponse.json("; ws;
       lit "{ "; Alt (lit "message") (lit "error"); lit ": "; quote;
       Alt (seq [lit "Unauthorized"; Opt (lit "."); lit " ";
                 Opt (seq [lit "Admin access required"; Opt (lit ".")])])
           (lit "Unauthorized");
       quote; lit " },"; ws;
       lit "{ status: "; Alt (lit "401") (lit "403"); lit " }"; ws;
       lit ");"; ws;
       lit "}"].

(** Pattern 2: compact format. *)
Definition pattern2 : regex :=
  seq [lit "const session = await getServerSession(authOptions);"; nl; nl;
       lit "    if (!session?.user || (session.user.role !== UserRole.ADMIN && session.user.role !== UserRole.STAFF)) {";
       nl;
       lit "      return NextResponse.json({ ";
       Alt (lit "error") (lit "message"); lit ": "; quote;
       lit "Unauthorized"; quote; lit " }, { status: 401 });"; nl;
       lit "    }"].

(** Step 1: add the requireAdminRole import if not present. *)
Definition step1 (content : str) : str :=
  if negb (contains (T "requireAdminRole") content) then
    (* remove old imports *)
    let content := sub old_import1 (fun _ => []) content 0 in
    let content := sub old_import2 (fun _ => []) content 0 in
    (* add new import after the NextRequest/NextResponse import *)
    sub next_import (expand import_template) content 1
  else content.

(** Step 2: replace the authorization blocks. *)
Definition step2 (content : str) : str :=
  let content := sub pattern1 (fun _ => new_auth_code) content 0 in
  sub pattern2 (fun _ => new_auth_code) content 0.

Definition update_file (filepath : str) : io bool :=
  try_except
    (content <- read_file filepath ;;
     let original_content := content in
     let content := step1 content in
     let content := step2 content in
     if negb (str_eqb content original_content) then
       write_file filepath content ;;;
       print (CHECK_MARK ++ T " Updated: " ++ filepath) ;;;
       ret true
     else
       print (WARNING_SIGN ++ T "  No changes needed: " ++ filepath) ;;;
       ret false)
    (report_error filepath).

(** The loop of [main]. *)
Fixpoint update_all (paths : list str) (updated_count : nat) : io nat :=
  match paths with
  | [] => ret updated_count
  | filepath :: paths' =>
      found <- path_exists filepath ;;
      updated_count <-
        (if found then
           updated <- update_file filepath ;;
           ret (if updated then updated_count + 1 else updated_count)
         else
           print (WARNING_SIGN ++ T "  File not found: " ++ filepath) ;;;
           ret updated_count) ;;
      update_all paths' updated_count
  end.

Definition main (files_to_update : list str) : io unit :=
  print (ARROWS ++ T " Updating " ++ str_of_nat (length files_to_update) ++
         T " admin route files...") ;;;
  updated_count <- update_all files_to_update 0 ;;
  print ([LF] ++ SPARKLES ++ T " Complete! Updated " ++
         str_of_nat updated_count ++ T "/" ++
         str_of_nat (length files_to_update) ++ T " files").

End AuthPatterns.

(* ================================================================== *)
(** ** scripts/update_auth_patterns_v2.py *)

Module AuthPatternsV2.

(** The tail the multi-line patterns share, from the closing parenthesis
    of the condition on. *)
Definition block_tail : list regex :=
  [ws; nl; ws; lit ") {"; ws; nl; ws;
   lit "return NextResponse.json("; ws; nl; ws;
   lit "{ "; Alt (lit "message") (lit "error"); lit ": "; quote;
   Rep 0 (CsNot [SQ; DQ]); quote; lit " },"; ws; nl; ws;
   lit "{ status: "; Rep 1 CsDigit; lit " }"; ws; nl; ws;
   lit ");"; ws; nl; ws;
   lit "}"].

Definition block_head : list regex :=
  [lit "const session = await getServerSession(authOptions);";
   ws; nl; ws; nl; ws;
   lit "if ("; ws; nl; ws;
   lit "!session?.user ||"; ws; nl; ws].

(** Pattern 1: with SUPERADMIN (3-role check). *)
Definition pattern1 : regex :=
  seq (block_head ++
       [lit "(session.user.role !== UserRole.ADMIN &&"; ws; nl; ws;
        lit "session.user.role !== UserRole.STAFF &&"; ws; nl; ws;
        lit "session.user.role !== UserRole.SUPERADMIN)"] ++
       block_tail).

(** Pattern 2: without SUPERADMIN (2-role check), multi-line. *)
Definition pattern2 : regex :=
  seq (block_head ++
       [lit "(session.user.role !== UserRole.ADMIN &&"; ws; nl; ws;
        lit "session.user.role !== UserRole.STAFF)"] ++
       block_tail).

(** Pattern 3: compact single-line version. *)
Definition pattern3 : regex :=
  seq [lit "const session = await getServerSession(authOptions);"; nl; nl;
       lit "    if (!session?.user || (session.user.role !== UserRole.ADMIN && session.user.role !== UserRole.STAFF";
       Opt (lit "&& session.user.role !== UserRole.SUPERADMIN");
       lit ")) {"; nl;
       lit "      return NextResponse.json({ ";
       Alt (lit "error") (lit "message"); lit ": "; quote;
       Rep 0 (CsNot [SQ; DQ]); quote; lit " }, { status: ";
       Rep 1 CsDigit; lit " });"; nl;
       lit "    }"].

(** Pattern 4: for DELETE with SUPERADMIN only. *)
Definition pattern4 : regex :=
  seq (block_head ++
       [lit "(session.user.role !== UserRole.ADMIN &&"; ws; nl; ws;
        lit "session.user.role !== UserRole.SUPERADMIN)"] ++
       block_tail).

(** [while p.search(content): content = p.sub(new, content, count=1);
    changes_made += 1].  [None] when [fuel] iterations did not end the
    loop. *)
Fixpoint while_sub (fuel : nat) (p : regex) (content : str)
    (changes_made : nat) : option (str * nat) :=
  match fuel with
  | O => None
  | S fuel' =>
      match search p content with
      | Some _ =>
          while_sub fuel' p (sub p (fun _ => new_auth_code) content 1)
            (changes_made + 1)
      | None => Some (content, changes_made)
      end
  end.

(** One loop of [update_file], bounded by the length of the text (see
    [while_sub_terminates]: the bound is never reached). *)
Definition run_loop (p : regex) (st : str * nat) : option (str * nat) :=
  while_sub (S (length (fst st))) p (fst st) (snd st).

Definition opt_bind {A B} (o : option A) (f : A -> option B) : option B :=
  match o with Some a => f a | None => None end.

(** The four loops in turn. *)
Definition rewrite (content : str) : option (str * nat) :=
  opt_bind (run_loop pattern1 (content, 0)) (fun st =>
  opt_bind (run_loop pattern2 st) (fun st =>
  opt_bind (run_loop pattern3 st) (fun st =>
  run_loop pattern4 st))).

Definition update_file (filepath : str) : io bool :=
  try_except
    (content <- read_file filepath ;;
     match rewrite content with
     | None => diverge
     | Some (content, changes_made) =>
         if 0 <? changes_made then
           write_file filepath content ;;;
           print (CHECK_MARK ++ T " Updated " ++ filepath ++ T " (" ++
                  str_of_nat changes_made ++ T " handler(s))") ;;;
           ret true
         else
           print (WARNING_SIGN ++ T "  No patterns matched: " ++ filepath) ;;;
           ret false
     end)
    (report_error filepath).

Fixpoint update_all (paths : list str) (updated_count : nat) : io nat :=
  match paths with
  | [] => ret updated_count
  | filepath :: paths' =>
      found <- path_exists filepath ;;
      updated_count <-
        (if found then
           updated <- update_file filepath ;;
           ret (if updated then updated_count + 1 else updated_count)
         else
           print (WARNING_SIGN ++ T "  File not found: " ++ filepath) ;;;
           ret updated_count) ;;
      update_all paths' updated_count
  end.

Definition main (files_to_update : list str) : io unit :=
  print (ARROWS ++ T " Updating " ++ str_of_nat (length files_to_update) ++
         T " remaining admin route files...") ;;;
  updated_count <- update_all files_to_update 0 ;;
  print ([LF] ++ SPARKLES ++ T " Complete! Updated " ++
         str_of_nat updated_count ++ T "/" ++
         str_of_nat (length files_to_update) ++ T " files").

End AuthPatternsV2.

(* ================================================================== *)
(** ** Sample texts *)

(** The lines of a text, joined by line feeds. *)
Fixpoint lines (l : list string) : str :=
  match l with
  | [] => []
  | [a] => T a
  | a :: l' => T a ++ LF :: lines l'
  end.

Module Samples.

Definition head (roles : list string) : list string :=
  ["const session = await getServerSession(authOptions);"; "";
   "    if ("; "      !session?.user ||"]%string
  ++ roles ++
  ["    ) {"; "      return NextResponse.json("]%string.

Definition two_roles : list string :=
  ["      (session.user.role !== UserRole.ADMIN &&";
   "        session.user.role !== UserRole.STAFF)"]%string.

Definition three_roles : list string :=
  ["      (session.user.role !== UserRole.ADMIN &&";
   "        session.user.role !== UserRole.STAFF &&";
   "        session.user.role !== UserRole.SUPERADMIN)"]%string.

Definition tail : list string :=
  ["        { status: 401 }"; "      );"; "    }"]%string.

(** A multi-line legacy block whose message is [msg]. *)
Definition block (roles : list string) (msg : str) : str :=
  lines (head roles) ++ [LF] ++ T "        { message: '" ++ msg ++
  T "' }," ++ [LF] ++ lines tail.

(** The usual two-role block. *)
Definition plain_block : str := block two_roles (T "Unauthorized").

(** A two-role block quoted inside the message of another block. *)
Definition nested2 : str := block two_roles (T "see " ++ plain_block).
Definition nested3 : str := block three_roles (T "see " ++ plain_block).

End Samples.

(** Shortest text a pattern can match. *)
Fixpoint min_len (r : regex) : nat :=
  match r with
  | Eps => 0
  | Lit _ => 1
  | Cls _ => 1
  | Cat r1 r2 => min_len r1 + min_len r2
  | Alt r1 r2 => Nat.min (min_len r1) (min_len r2)
  | Opt _ => 0
  | Rep lo _ => lo
  | Grp _ r1 => min_len r1
  end.

(** The text a scan rebuilds: before each match its gap, for each match
    [f] of it, after the last match the rest. *)
Fixpoint rebuild (f : rmatch -> str) (ms : list rmatch) (s : str) : str :=
  match ms with
  | [] => s
  | mt :: ms' => m_pre mt ++ f mt ++ rebuild f ms' (m_rest mt)
  end.

(* ================================================================== *)
(** ** Vocabulary of the properties, and sample inputs *)

Unset Implicit Arguments.

(** The measure of the substitution loop: it goes down at every match. *)
Definition scan_measure (s : str) (adv : bool) : nat :=
  2 * length s + (if adv then 0 else 1).

(** [k] single substitutions of the leftmost match, one after the other. *)
Fixpoint subs (p : regex) (k : nat) (content : str) : str :=
  match k with
  | O => content
  | S k' => subs p k' (sub p (fun _ => new_auth_code) content 1)
  end.

(** The writes of a trace that go to path [q]. *)
Definition writes_to (q : str) (tr : list event) : list (str * str) :=
  filter (fun pc => str_eqb (fst pc) q) (writes tr).

(** A world with one readable, writable file. *)
Definition one_file (p t : str) : world :=
  MkWorld [(p, t)] (fun _ => None) (fun _ => None) (fun _ => None).

Definition route : str := T "/app/api/admin/orders/route.ts".

(** The mechanism claim C10 names: one substitution leaves fewer matches
    than there were. *)
Definition matches_decrease (p : regex) (content : str) : Prop :=
  search p content <> None ->
  length (finditer p (sub p (fun _ => new_auth_code) content 1))
  < length (finditer p content).

Definition error_line (filepath e : str) : str :=
  CROSS_MARK ++ T " Error updating " ++ filepath ++ T ": " ++ e.

(** The four shapes a run of [update_file] on [p] can take: the read
    raised; nothing was written; the write of a changed text raised; the
    changed text was written. *)
Inductive file_run (p : str) (w : world)
  : outcome bool * world * list event -> Prop :=
| RunReadError e :
    read_file p w = (Exc e, w, []) ->
    file_run p w (Val false, w, [EvPrint (error_line p e)])
| RunNoWrite content ls :
    read_file p w = (Val content, w, []) ->
    length ls <= 1 ->
    file_run p w (Val false, w, map EvPrint ls)
| RunWriteError content c e :
    read_file p w = (Val content, w, []) ->
    c <> content ->
    w_write_err w p = Some e ->
    file_run p w
      (Val false, failed_write p c w, [EvWrite p c; EvPrint (error_line p e)])
| RunUpdated content c l :
    read_file p w = (Val content, w, []) ->
    c <> content ->
    w_write_err w p = None ->
    file_run p w (Val true, store p c w, [EvWrite p c; EvPrint l]).

(** The three scripts: [update_file] with the loop of [main] that calls
    it. *)
Definition scripts : list ((str -> io bool) * (list str -> nat -> io nat)) :=
  [(AuditLogging.update_file, AuditLogging.update_all);
   (AuthPatterns.update_file, AuthPatterns.update_all);
   (AuthPatternsV2.update_file, AuthPatternsV2.update_all)].

(** An exception while [update_file] works on [p]: the read raises [e], or
    the write of the new text raises [e].  The last two indices are what
    the run had done to the outside by then, and the file system the
    exception leaves: the one there was when the read raised; when the
    write raised, the one [failed_write] gives, where the file is as it was
    or holds the part of the new text that was written. *)
Inductive io_failure (update_file : str -> io bool) (p : str) (w : world)
    (e : str) : list event -> world -> Prop :=
| ReadFails :
    read_file p w = (Exc e, w, []) ->
    io_failure update_file p w e [] w
| WriteFails c :
    w_write_err w p = Some e ->
    In (p, c) (writes (snd (update_file p w))) ->
    io_failure update_file p w e [EvWrite p c] (failed_write p c w).

(** [t0] happens, then [r]. *)
Definition after {A} (t0 : list event) (r : outcome A * world * list event)
  : outcome A * world * list event :=
  match r with (o, w, t) => (o, w, t0 ++ t) end.

(** A file that cannot be read, and one that can. *)
Definition denied : str :=
  T "[Errno 13] Permission denied: '/app/api/admin/orders/route.ts'".

Definition route2 : str := T "/app/api/admin/reports/route.ts".

Definition locked_world : world :=
  MkWorld [(route, Samples.plain_block); (route2, Samples.plain_block)]
    (fun q => if str_eqb q route then Some denied else None)
    (fun _ => None) (fun _ => None).

(** A disk that fills up while the first file is written: the write
    raises when 22 characters of the text are in the file. *)
Definition no_space : str := T "[Errno 28] No space left on device".

Definition full_world : world :=
  MkWorld [(route, Samples.plain_block); (route2, Samples.plain_block)]
    (fun _ => None)
    (fun q => if str_eqb q route then Some no_space else None)
    (fun q => if str_eqb q route then Some 22 else None).

(** Every candidate is named in some printed line. *)
Definition every_fate_reported (candidates : list str) (tr : list event)
  : Prop :=
  forall p, In p candidates ->
    exists l, In l (prints tr) /\ contains p l = true.

(** A file with the legacy call in a shape the pattern does not match, and
    a file that cannot be read. *)
Definition odd_audit : str :=
  lines ["import { prisma } from '@/lib/prisma';";
         "await prisma.auditLog.create({ data });"]%string.

Definition audit_world : world :=
  MkWorld [(route, odd_audit); (route2, odd_audit)]
    (fun q => if str_eqb q route2 then Some denied else None)
    (fun _ => None) (fun _ => None).

(** The lines update_auth_patterns.py prints for a candidate. *)
Definition updated_line (p : str) : str := CHECK_MARK ++ T " Updated: " ++ p.

Definition unchanged_line (p : str) : str :=
  WARNING_SIGN ++ T "  No changes needed: " ++ p.

Definition not_found_line (p : str) : str :=
  WARNING_SIGN ++ T "  File not found: " ++ p.

(** What update_auth_patterns.py does with candidate [p] when its turn
    comes, in the file system [w] there is then: the line it prints,
    whether the candidate counts as updated, and the file system it
    leaves.  The five cases exclude each other. *)
Inductive auth_fate (p : str) (w : world) : str -> bool -> world -> Prop :=
| AuthNotFound :
    lookup p (w_files w) = None ->
    auth_fate p w (not_found_line p) false w
| AuthReadError e :
    lookup p (w_files w) <> None ->
    read_file p w = (Exc e, w, []) ->
    auth_fate p w (error_line p e) false w
| AuthUnchanged content :
    read_file p w = (Val content, w, []) ->
    AuthPatterns.step2 (AuthPatterns.step1 content) = content ->
    auth_fate p w (unchanged_line p) false w
| AuthWriteError content e :
    read_file p w = (Val content, w, []) ->
    AuthPatterns.step2 (AuthPatterns.step1 content) <> content ->
    w_write_err w p = Some e ->
    auth_fate p w (error_line p e) false
      (failed_write p (AuthPatterns.step2 (AuthPatterns.step1 content)) w)
| AuthUpdated content :
    read_file p w = (Val content, w, []) ->
    AuthPatterns.step2 (AuthPatterns.step1 content) <> content ->
    w_write_err w p = None ->
    auth_fate p w (updated_line p) true
      (store p (AuthPatterns.step2 (AuthPatterns.step1 content)) w).

(** The candidates in turn, each in the file system the one before it
    left: one line for each, and the number of those updated. *)
Inductive auth_batch : list str -> world -> list str -> nat -> world -> Prop :=
| AuthBatchNil w : auth_batch [] w [] 0 w
| AuthBatchCons p ps w l b w1 ls u w' :
    auth_fate p w l b w1 ->
    auth_batch ps w1 ls u w' ->
    auth_batch (p :: ps) w (l :: ls) ((if b then 1 else 0) + u) w'.

Definition is_updated_line (l : str) : bool :=
  match strip_prefix CHECK_MARK l with Some _ => true | None => false end.

(** The same paths exist in both worlds. *)
Definition same_files (w0 w : world) : Prop :=
  forall q, lookup q (w_files w) = None <-> lookup q (w_files w0) = None.

(** A legacy audit block with the given fields in its data object. *)
Definition audit_block (fields : list string) : str :=
  lines (["// Log the action (skip if audit log fails)";
          "    try {";
          "      await prisma.auditLog.create({";
          "        data: {"]%string
         ++ fields ++
         ["        },";
          "      });";
          "    } catch (auditError) {";
          "      console.warn('Audit log failed:', auditError);";
          "    }"]%string).

(** A block without an action, and a complete one. *)
Definition bad_block : str :=
  audit_block ["          userId: session.user.id,";
               "          resource: 'Order',"]%string.

Definition good_block : str :=
  audit_block ["          userId: session.user.id ,";
               "          action: 'UPDATE',";
               "          resource: 'Order',";
               "          resourceId: params.id,"]%string.

(** One of the three required fields cannot be extracted from the data of
    the match. *)
Definition fields_missing (mt : rmatch) : bool :=
  match search AuditLogging.user_id_re (group mt 1),
        search AuditLogging.action_re (group mt 1),
        search AuditLogging.resource_re (group mt 1) with
  | Some _, Some _, Some _ => false
  | _, _, _ => true
  end.

(** A route file with two imports from the anchor module and one complete
    audit block. *)
Definition two_anchors : str :=
  lines ["import { prisma } from '@/lib/db/prisma';";
         "import type { Tx } from '@/lib/db/prisma';";
         ""]%string
  ++ [LF] ++ good_block ++ [LF].

(** The file is as migrated as it can be: the helper symbol occurs and no
    legacy pattern matches. *)
Definition already_migrated (helper : str) (patterns : list regex)
    (content : str) : Prop :=
  contains helper content = true /\
  Forall (fun r => search r content = None) patterns.

(** A route with one handler migrated by hand and one legacy block. *)
Definition half_migrated : str :=
  T "import { requireAdminRole } from '@/lib/auth/authorization';" ++ [LF]
  ++ new_auth_code ++ [LF] ++ Samples.plain_block.

Definition migrated : str :=
  T "import { requireAdminRole } from '@/lib/auth/authorization';" ++ [LF]
  ++ new_auth_code ++ [LF] ++ new_auth_code.


(** The world a run leaves behind. *)
Definition world_after {A} (r : outcome A * world * list event) : world :=
  snd (fst r).

(** A route as the scripts expect it. *)
Definition legacy_route : str :=
  lines ["import { NextRequest, NextResponse } from 'next/server';";
         "import { getServerSession } from 'next-auth';";
         "import { authOptions } from '@/lib/auth/config';";
         "";
         "export async function GET(request: NextRequest) {"]%string
  ++ [LF] ++ T "    " ++ Samples.plain_block ++ [LF] ++
  lines ["    return NextResponse.json({ ok: true });"; "}"]%string.

(** A route that imports the session helpers and has no legacy block. *)
Definition imports_only : str :=
  lines ["import { NextRequest, NextResponse } from 'next/server';";
         "import { getServerSession } from 'next-auth';";
         "";
         "export async function GET() {";
         "  return NextResponse.json({ ok: true });";
         "}"]%string.

Definition imports_only_after : str :=
  lines ["import { NextRequest, NextResponse } from 'next/server';";
         "import { requireAdminRole } from '@/lib/auth/authorization';";
         "";
         "export async function GET() {";
         "  return NextResponse.json({ ok: true });";
         "}"]%string.

(** The world after [k] runs of [update_file] on [p], one after the
    other. *)
Fixpoint run_n (update_file : str -> io bool) (p : str) (k : nat)
    (w : world) : world :=
  match k with
  | O => w
  | S k' => run_n update_file p k' (world_after (update_file p w))
  end.

(** The lines update_auth_patterns_v2.py prints for a candidate. *)
Definition v2_updated_line (p : str) (n : nat) : str :=
  CHECK_MARK ++ T " Updated " ++ p ++ T " (" ++ str_of_nat n ++
  T " handler(s))".

Definition v2_unmatched_line (p : str) : str :=
  WARNING_SIGN ++ T "  No patterns matched: " ++ p.

(** The line of version 2 that tells the fate of candidate [p], given the
    files there were when the run began. *)
Definition v2_fate_line (w0 : world) (p l : str) : Prop :=
  match lookup p (w_files w0) with
  | None => l = not_found_line p
  | Some _ =>
      (exists n, 0 < n /\ l = v2_updated_line p n) \/
      l = v2_unmatched_line p \/
      exists e, l = error_line p e
  end.

(** The test of the first loop of update_audit_logging.py's [main]: the
    candidate can be read and holds the legacy call. *)
Definition has_audit_call (w : world) (p : str) : bool :=
  match read_file p w with
  | (Val content, _, _) => contains (T "prisma.auditLog.create") content
  | _ => false
  end.

(** The lines update_audit_logging.py prints for a file. *)
Definition audit_updated_line (p : str) (n : nat) : str :=
  CHECK_MARK ++ T " Updated: " ++ p ++ T " (" ++ str_of_nat n ++
  T " change(s))".

(** The two steps of update_audit_logging.py on the text read: the new
    text and the number of steps that changed it. *)
Definition audit_rewrite (content : str) : str * nat :=
  let '(c1, n1) := AuditLogging.step1 content 0 in
  AuditLogging.step2 c1 n1.

(** What update_audit_logging.py does with a file of its second loop when
    its turn comes, in the file system [w] there is then: the line it
    prints, if any, whether the file counts as updated, and the file system
    it leaves.  The five cases exclude each other. *)
Inductive audit_fate (p : str) (w : world)
  : option str -> bool -> world -> Prop :=
| AuditReadError e :
    read_file p w = (Exc e, w, []) ->
    audit_fate p w (Some (error_line p e)) false w
| AuditNoCall content :
    read_file p w = (Val content, w, []) ->
    contains (T "prisma.auditLog.create") content = false ->
    audit_fate p w None false w
| AuditUnchanged content n :
    read_file p w = (Val content, w, []) ->
    contains (T "prisma.auditLog.create") content = true ->
    audit_rewrite content = (content, n) ->
    audit_fate p w None false w
| AuditWriteError content c n e :
    read_file p w = (Val content, w, []) ->
    contains (T "prisma.auditLog.create") content = true ->
    audit_rewrite content = (c, n) ->
    c <> content ->
    w_write_err w p = Some e ->
    audit_fate p w (Some (error_line p e)) false (failed_write p c w)
| AuditUpdated content c n :
    read_file p w = (Val content, w, []) ->
    contains (T "prisma.auditLog.create") content = true ->
    audit_rewrite content = (c, n) ->
    c <> content ->
    1 <= n <= 2 ->
    w_write_err w p = None ->
    audit_fate p w (Some (audit_updated_line p n)) true (store p c w).

(** A line, if there is one, in front of the others. *)
Definition add_line (ol : option str) (ls : list str) : list str :=
  match ol with
  | Some l => l :: ls
  | None => ls
  end.

(** The files of the second loop in turn, each in the file system the one
    before it left: for each its line or none, and the number of those
    updated. *)
Inductive audit_batch
  : list str -> world -> list str -> nat -> world -> Prop :=
| AuditBatchNil w : audit_batch [] w [] 0 w
| AuditBatchCons p ps w ol b w1 ls u w' :
    audit_fate p w ol b w1 ->
    audit_batch ps w1 ls u w' ->
    audit_batch (p :: ps) w (add_line ol ls) ((if b then 1 else 0) + u) w'.

(** The texts a pattern stands for. *)
Inductive lang : regex -> str -> Prop :=
| LEps : lang Eps []
| LLit c : lang (Lit c) [c]
| LCls cs c : cs_mem cs c = true -> lang (Cls cs) [c]
| LCat r1 r2 u v : lang r1 u -> lang r2 v -> lang (Cat r1 r2) (u ++ v)
| LAltL r1 r2 u : lang r1 u -> lang (Alt r1 r2) u
| LAltR r1 r2 u : lang r2 u -> lang (Alt r1 r2) u
| LOptSome r u : lang r u -> lang (Opt r) u
| LOptNone r : lang (Opt r) []
| LRep lo cs u :
    lo <= length u -> Forall (fun c => cs_mem cs c = true) u ->
    lang (Rep lo cs) u
| LGrp i r u : lang r u -> lang (Grp i r) u.

(** The one text a pattern made of literals stands for. *)
Fixpoint fixed (r : regex) : option str :=
  match r with
  | Eps => Some []
  | Lit c => Some [c]
  | Cat a b =>
      match fixed a, fixed b with
      | Some x, Some y => Some (x ++ y)
      | _, _ => None
      end
  | Grp _ a => fixed a
  | _ => None
  end.

(** The literal text every match of a pattern begins with, and the one it
    ends with. *)
Fixpoint prefix_of (r : regex) : str :=
  match r with
  | Lit c => [c]
  | Cat a b =>
      match fixed a with
      | Some x => x ++ prefix_of b
      | None => prefix_of a
      end
  | Grp _ a => prefix_of a
  | _ => []
  end.

Fixpoint suffix_of (r : regex) : str :=
  match r with
  | Lit c => [c]
  | Cat a b =>
      match fixed b with
      | Some y => suffix_of a ++ y
      | None => suffix_of b
      end
  | Grp _ a => suffix_of a
  | _ => []
  end.

(** [u] occurs in [s] from position [length a] on. *)
Definition occurs_at (r : regex) (s a u : str) : Prop :=
  lang r u /\ exists b, s = a ++ u ++ b.

(** The patterns whose matches the scripts replace, each with the text its
    matches begin with. *)
Definition rewrite_patterns : list (regex * str) :=
  [(AuditLogging.pattern, T "// Log the action (skip if audit log fails)");
   (AuthPatterns.pattern1,
    T "const session = await getServerSession(authOptions);");
   (AuthPatterns.pattern2,
    T "const session = await getServerSession(authOptions);");
   (AuthPatternsV2.pattern1,
    T "const session = await getServerSession(authOptions);");
   (AuthPatternsV2.pattern2,
    T "const session = await getServerSession(authOptions);");
   (AuthPatternsV2.pattern3,
    T "const session = await getServerSession(authOptions);");
   (AuthPatternsV2.pattern4,
    T "const session = await getServerSession(authOptions);")].

(** The two import lines after which update_auth_patterns.py inserts its
    own. *)
Definition next_import1 : str :=
  T "import { NextRequest, NextResponse } from 'next/server';".
Definition next_import2 : str :=
  T "import { NextResponse, NextRequest } from 'next/server';".

(** The patterns inside the groups numbered [i] of a pattern. *)
Fixpoint group_bodies (i : nat) (r : regex) : list regex :=
  match r with
  | Cat a b => group_bodies i a ++ group_bodies i b
  | Alt a b => group_bodies i a ++ group_bodies i b
  | Opt a => group_bodies i a
  | Grp j a => (if i =? j then [a] else []) ++ group_bodies i a
  | _ => []
  end.

(** Every match of the pattern sets group [i]. *)
Fixpoint always_binds (i : nat) (r : regex) : bool :=
  match r with
  | Cat a b => always_binds i a || always_binds i b
  | Alt a b => always_binds i a && always_binds i b
  | Grp j a => (i =? j) || always_binds i a
  | _ => false
  end.

(** What a match does to group [i]: a binding is the one there was or a
    text of one of the group's patterns; a bound group stays bound; and a
    pattern that always binds the group leaves it bound. *)
Definition groups_step (i : nat) (r : regex) (g g' : groups) : Prop :=
  (forall t, group_lookup i g' = Some t ->
     group_lookup i g = Some t \/
     exists body, In body (group_bodies i r) /\ lang body t) /\
  (group_lookup i g <> None -> group_lookup i g' <> None) /\
  (always_binds i r = true -> group_lookup i g' <> None).

(** A non-empty run of word characters. *)
Definition word_text (t : str) : Prop :=
  t <> [] /\ Forall (fun c => is_word c = true) t.

(** A text, possibly empty, without a comma and without a line feed. *)
Definition one_line_item (t : str) : Prop :=
  Forall (fun c => c <> ","%char /\ c <> LF) t.

(** A complete block whose resourceId is blank. *)
Definition blank_id_block : str :=
  audit_block ["          userId: session.user.id,";
               "          action: 'UPDATE',";
               "          resource: 'Order',";
               "          resourceId: ,"]%string.


























(** A route with a legacy authorization block and a legacy audit block. *)
Definition mixed_route : str := legacy_route ++ [LF] ++ two_anchors.

(* ================================================================== *)
(** * Properties of the text and matching functions *)

Lemma str_eqb_eq (a b : str) : str_eqb a b = true <-> a = b.
Proof.
  unfold str_eqb. destruct (list_eq_dec ascii_dec a b); split; congruence.
Qed.

Lemma str_eqb_refl (a : str) : str_eqb a a = true.
Proof. now apply str_eqb_eq. Qed.

Lemma str_eqb_neq (a b : str) : str_eqb a b = false <-> a <> b.
Proof.
  unfold str_eqb. destruct (list_eq_dec ascii_dec a b); split; congruence.
Qed.

Lemma strip_prefix_app (p s r : str) :
  strip_prefix p s = Some r <-> s = p ++ r.
Proof.
  revert s; induction p as [|c p IH]; intros s; simpl.
  - split; congruence.
  - destruct s as [|d s]; [split; congruence|].
    destruct (Ascii.eqb_spec c d) as [->|Hne].
    + rewrite IH. split; congruence.
    + split; congruence.
Qed.

Section MatcherFacts.
Variable R : Type.

(** A successful repetition hands the continuation a suffix of the text,
    at least [lo] characters further on. *)
Lemma m_rep_inv cs (s : str) : forall lo g (k : str -> groups -> option R) x,
  m_rep cs lo s g k = Some x ->
  exists u s', s = u ++ s' /\ lo <= length u /\ k s' g = Some x.
Proof.
  induction s as [|c s IH]; intros lo g k x H; simpl in H.
  - destruct lo; [|discriminate]. exists [], []. auto.
  - destruct (cs_mem cs c).
    + destruct (m_rep cs (pred lo) s g k) eqn:E.
      * inversion H; subst.
        destruct (IH _ _ _ _ E) as (u & s' & -> & Hl & Hk).
        exists (c :: u), s'. simpl. repeat split; auto. lia.
      * destruct lo; [|discriminate]. exists [], (c :: s). auto.
    + destruct lo; [|discriminate]. exists [], (c :: s). auto.
Qed.

(** The same for a whole pattern: whatever the matcher returns, the
    continuation returned it on a suffix at least [min_len r] further. *)
Lemma m_inv (r : regex) : forall s g (k : str -> groups -> option R) x,
  m r s g k = Some x ->
  exists u s' g', s = u ++ s' /\ min_len r <= length u /\ k s' g' = Some x.
Proof.
  induction r as [|c|cs|r1 IH1 r2 IH2|r1 IH1 r2 IH2|r1 IH1|lo cs|i r1 IH1];
    intros s g k x H; simpl in H.
  - exists [], s, g. auto.
  - destruct s as [|d s]; [discriminate|].
    destruct (Ascii.eqb c d); [|discriminate].
    exists [d], s, g. auto.
  - destruct s as [|d s]; [discriminate|].
    destruct (cs_mem cs d); [|discriminate].
    exists [d], s, g. auto.
  - apply IH1 in H. destruct H as (u1 & s1 & g1 & -> & Hl1 & H).
    apply IH2 in H. destruct H as (u2 & s2 & g2 & -> & Hl2 & H).
    exists (u1 ++ u2), s2, g2. rewrite <- app_assoc, length_app.
    simpl. repeat split; auto. lia.
  - destruct (m r1 s g k) eqn:E.
    + inversion H; subst. apply IH1 in E.
      destruct E as (u & s' & g' & -> & Hl & Hk).
      exists u, s', g'. simpl. repeat split; auto. lia.
    + apply IH2 in H. destruct H as (u & s' & g' & -> & Hl & Hk).
      exists u, s', g'. simpl. repeat split; auto. lia.
  - destruct (m r1 s g k) eqn:E.
    + inversion H; subst. apply IH1 in E.
      destruct E as (u & s' & g' & -> & Hl & Hk).
      exists u, s', g'. simpl. repeat split; auto. lia.
    + exists [], s, g. simpl. auto.
  - apply m_rep_inv in H. destruct H as (u & s' & -> & Hl & Hk).
    exists u, s', g. auto.
  - apply IH1 in H. destruct H as (u & s' & g' & -> & Hl & Hk).
    eexists u, s', _. simpl. repeat split; eauto.
Qed.
End MatcherFacts.

Lemma firstn_consumed (u s' : str) :
  firstn (length (u ++ s') - length s') (u ++ s') = u.
Proof.
  rewrite length_app, Nat.add_sub.
  rewrite firstn_app, Nat.sub_diag, firstn_all. simpl. apply app_nil_r.
Qed.

(** One attempt: the rest is a suffix, the consumed text is at least
    [min_len r] long and, with [adv], not empty. *)
Lemma match_here_inv r s adv s' g :
  match_here r s adv = Some (s', g) ->
  exists u, s = u ++ s' /\ min_len r <= length u /\
            (adv = true -> u <> []).
Proof.
  unfold match_here. intros H. apply m_inv in H.
  destruct H as (u & s1 & g1 & -> & Hl & Hk).
  destruct (adv && (length s1 =? length (u ++ s1))) eqn:E; [discriminate|].
  inversion Hk; subst. exists u. repeat split; auto.
  intros -> ->. simpl in E. rewrite Nat.eqb_refl in E. discriminate.
Qed.

(** A search result splits the text: gap, match, rest. *)
Lemma search_go_inv r : forall s pre adv mt,
  search_go r pre s adv = Some mt ->
  exists gap, m_pre mt = rev pre ++ gap /\
              s = gap ++ m_text mt ++ m_rest mt /\
              min_len r <= length (m_text mt) /\
              (adv = true -> gap <> [] \/ m_text mt <> []).
Proof.
  induction s as [|c s IH]; intros pre adv mt H; cbn [search_go] in H.
  - destruct (match_here r [] adv) as [[s' g]|] eqn:E; [|discriminate].
    inversion H; subst; clear H. simpl.
    apply match_here_inv in E. destruct E as (u & Hs & Hl & Ha).
    destruct u; [|discriminate]. simpl in Hs; subst s'.
    exists []. simpl. rewrite app_nil_r. repeat split; auto.
  - destruct (match_here r (c :: s) adv) as [[s' g]|] eqn:E.
    + apply match_here_inv in E. destruct E as (u & Hs & Hl & Ha).
      rewrite Hs in H. rewrite firstn_consumed in H.
      inversion H; subst mt; clear H. cbn [m_pre m_text m_rest].
      exists []. simpl. rewrite app_nil_r. repeat split; auto.
    + apply IH in H. destruct H as (gap & Hp & Hs & Hl & _).
      exists (c :: gap). simpl in Hp. rewrite <- app_assoc in Hp. simpl in Hp.
      repeat split; auto.
      * simpl. congruence.
      * intros _. left. discriminate.
Qed.

Lemma search_inv r s mt :
  search r s = Some mt ->
  s = m_pre mt ++ m_text mt ++ m_rest mt /\
  min_len r <= length (m_text mt).
Proof.
  intros H. apply search_go_inv in H.
  destruct H as (gap & Hp & Hs & Hl & _). simpl in Hp. subst gap. auto.
Qed.

(** The matcher on small inputs, as the library behaves on them: empty
    matches next to a match ([re.sub('x*', '-', 'abxd')] is ['-a-b--d-']),
    a greedy repetition that gives characters back, the first alternative
    that lets the rest match, and a group. *)
Example sub_empty_matches :
  sub (Rep 0 (CsChars ["x"%char])) (fun _ => T "-") (T "abxd") 0
  = T "-a-b--d-".
Proof. vm_compute. reflexivity. Qed.

Example greedy_gives_back :
  option_map m_text
    (search (seq [lit "a"; ws; nl; ws; lit "b"])
       (T "xa " ++ [LF; LF] ++ T " b"))
  = Some (T "a " ++ [LF; LF] ++ T " b").
Proof. vm_compute. reflexivity. Qed.

Example alternatives_in_order :
  map
    (fun msg =>
       match search AuthPatterns.pattern1
               (Samples.block Samples.two_roles (T msg)) with
       | Some _ => true
       | None => false
       end)
    ["Unauthorized"; "Unauthorized. Admin access required.";
     "Unauthorized "; "Unauthorized."; "Forbidden"]%string
  = [true; true; true; false; false].
Proof. vm_compute. reflexivity. Qed.

Example group_text :
  option_map (fun mt => group mt 1)
    (search AuditLogging.user_id_re (T "data: { userId: session.user.id, x"))
  = Some (T "session.user.id").
Proof. vm_compute. reflexivity. Qed.

Lemma scan_measure_next r s adv mt :
  search_go r [] s adv = Some mt ->
  scan_measure (m_rest mt) (length (m_text mt) =? 0) < scan_measure s adv.
Proof.
  intros H. apply search_go_inv in H.
  destruct H as (gap & _ & Hs & _ & Ha).
  apply (f_equal (@length ascii)) in Hs. rewrite !length_app in Hs.
  unfold scan_measure.
  destruct (m_text mt) as [|c t]; simpl in *.
  - destruct adv; [|lia].
    destruct (Ha eq_refl) as [Hg|Hg]; [|congruence].
    destruct gap; [congruence|]. simpl in Hs. lia.
  - destruct adv; lia.
Qed.

(** Any fuel above the measure gives the same substitution: the bound set
    by [subn] is never what stops the loop. *)
Lemma subn_go_fuel r repl count : forall f1 f2 s adv n,
  scan_measure s adv < f1 -> scan_measure s adv < f2 ->
  subn_go f1 r repl count s adv n = subn_go f2 r repl count s adv n.
Proof.
  induction f1 as [|f1 IH]; intros f2 s adv n H1 H2; [lia|].
  destruct f2 as [|f2]; [lia|]. simpl.
  destruct (negb (count =? 0) && (count <=? n)); [reflexivity|].
  destruct (search_go r [] s adv) as [mt|] eqn:E; [|reflexivity].
  pose proof (scan_measure_next _ _ _ _ E) as Hm.
  rewrite (IH f2); [reflexivity|lia|lia].
Qed.

Lemma finditer_go_fuel r : forall f1 f2 s adv,
  scan_measure s adv < f1 -> scan_measure s adv < f2 ->
  finditer_go f1 r s adv = finditer_go f2 r s adv.
Proof.
  induction f1 as [|f1 IH]; intros f2 s adv H1 H2; [lia|].
  destruct f2 as [|f2]; [lia|]. simpl.
  destruct (search_go r [] s adv) as [mt|] eqn:E; [|reflexivity].
  pose proof (scan_measure_next _ _ _ _ E) as Hm.
  rewrite (IH f2); [reflexivity|lia|lia].
Qed.

(** The loop of [subn], as the library runs it. *)
Lemma subn_unfold r repl s :
  subn r repl s 0 =
  match search r s with
  | None => (s, 0)
  | Some mt =>
      let (out, n) :=
        subn_go (2 * length (m_rest mt) + 2) r repl 0 (m_rest mt)
          (length (m_text mt) =? 0) 1 in
      (m_pre mt ++ repl mt ++ out, n)
  end.
Proof.
  unfold subn, search.
  replace (2 * length s + 2) with (S (2 * length s + 1)) by lia.
  cbn [subn_go]. simpl negb. cbn [andb].
  destruct (search_go r [] s false) as [mt|] eqn:E; [|reflexivity].
  pose proof (scan_measure_next _ _ _ _ E) as Hm. unfold scan_measure in Hm.
  rewrite (@subn_go_fuel r repl 0 (2 * length s + 1)
             (2 * length (m_rest mt) + 2)); [reflexivity| |];
    unfold scan_measure; destruct (length (m_text mt) =? 0); lia.
Qed.

(** Without a match nothing is substituted. *)
Lemma subn_none r repl s count :
  search r s = None -> subn r repl s count = (s, 0).
Proof.
  unfold subn, search. intros H.
  replace (2 * length s + 2) with (S (2 * length s + 1)) by lia.
  cbn [subn_go]. rewrite H.
  destruct (negb (count =? 0) && (count <=? 0)); reflexivity.
Qed.

Lemma sub_none r repl s count :
  search r s = None -> sub r repl s count = s.
Proof. intros H. unfold sub. now rewrite subn_none. Qed.

(** With [count=1] the leftmost match is replaced and the rest copied. *)
Lemma sub_once r repl s mt :
  search r s = Some mt ->
  sub r repl s 1 = m_pre mt ++ repl mt ++ m_rest mt.
Proof.
  unfold sub, subn, search. intros H.
  replace (2 * length s + 2) with (S (S (2 * length s))) by lia.
  cbn [subn_go]. simpl. rewrite H. reflexivity.
Qed.

(** A full substitution rewrites exactly the matches of one scan. *)
Lemma subn_go_rebuild r repl : forall fuel s adv n,
  subn_go fuel r repl 0 s adv n =
  (rebuild repl (finditer_go fuel r s adv) s,
   n + length (finditer_go fuel r s adv)).
Proof.
  induction fuel as [|fuel IH]; intros s adv n; simpl.
  - f_equal. lia.
  - destruct (search_go r [] s adv) as [mt|] eqn:E; simpl.
    + rewrite IH. f_equal. lia.
    + f_equal. lia.
Qed.

Lemma subn_rebuild r repl s :
  subn r repl s 0 =
  (rebuild repl (finditer r s) s, length (finditer r s)).
Proof. unfold subn, finditer. now rewrite subn_go_rebuild. Qed.

(** The matches of a scan, put back between their gaps, are the text. *)
Lemma rebuild_text r : forall fuel s adv,
  rebuild m_text (finditer_go fuel r s adv) s = s.
Proof.
  induction fuel as [|fuel IH]; intros s adv; simpl; [reflexivity|].
  destruct (search_go r [] s adv) as [mt|] eqn:E; simpl; [|reflexivity].
  rewrite IH. apply search_go_inv in E.
  destruct E as (gap & Hp & Hs & _). simpl in Hp. now subst gap.
Qed.

Lemma rebuild_ext (f h : rmatch -> str) : forall ms s,
  (forall mt, In mt ms -> f mt = h mt) ->
  rebuild f ms s = rebuild h ms s.
Proof.
  induction ms as [|mt ms IH]; intros s H; simpl; [reflexivity|].
  rewrite (H mt (or_introl eq_refl)), IH; auto.
  intros mt' Hin. apply H. now right.
Qed.

(** Every match of a scan is at least [min_len r] long. *)
Lemma finditer_go_min_len r : forall fuel s adv mt,
  In mt (finditer_go fuel r s adv) -> min_len r <= length (m_text mt).
Proof.
  induction fuel as [|fuel IH]; intros s adv mt H; simpl in H; [tauto|].
  destruct (search_go r [] s adv) as [mt0|] eqn:E; [|destruct H].
  destruct H as [<-|H]; [|eauto].
  apply search_go_inv in E. destruct E as (gap & _ & _ & Hl & _). exact Hl.
Qed.

(** A single substitution of a pattern whose matches are all longer than
    the replacement shortens the text. *)
Lemma sub_once_shorter r (new : str) s mt :
  length new < min_len r ->
  search r s = Some mt ->
  length (sub r (fun _ => new) s 1) < length s.
Proof.
  intros Hlen H. rewrite (@sub_once _ _ _ _ H).
  apply search_inv in H. destruct H as [Hs Hl].
  rewrite Hs at 1. rewrite !length_app. lia.
Qed.

(* ================================================================== *)
(** * The loops of update_auth_patterns_v2.py *)

(** Every match of the four patterns is longer than the replacement. *)
Lemma v2_min_len :
  length new_auth_code < min_len AuthPatternsV2.pattern1 /\
  length new_auth_code < min_len AuthPatternsV2.pattern2 /\
  length new_auth_code < min_len AuthPatternsV2.pattern3 /\
  length new_auth_code < min_len AuthPatternsV2.pattern4.
Proof. vm_compute. repeat split; lia. Qed.

Section WhileSub.
Variable p : regex.
Hypothesis Hp : length new_auth_code < min_len p.

(** The loop ends before the bound when the bound exceeds the length of
    the text. *)
Lemma while_sub_total : forall fuel content n,
  length content < fuel ->
  exists res, AuthPatternsV2.while_sub fuel p content n = Some res.
Proof.
  induction fuel as [|fuel IH]; intros content n Hf; [lia|]. simpl.
  destruct (search p content) as [mt|] eqn:E; [|eauto].
  apply IH. pose proof (@sub_once_shorter _ _ _ _ Hp E). lia.
Qed.

(** What the loop returns: it made [k] substitutions, each on a text that
    still had a match, none is left, the count went up by [k], and the
    text lost at least one character per substitution. *)
Lemma while_sub_spec : forall fuel content n c' n',
  AuthPatternsV2.while_sub fuel p content n = Some (c', n') ->
  exists k,
    n' = n + k /\ c' = subs p k content /\
    search p c' = None /\
    (forall j, j < k -> search p (subs p j content) <> None) /\
    length c' + k <= length content.
Proof.
  induction fuel as [|fuel IH]; intros content n c' n' H; [discriminate|].
  simpl in H. destruct (search p content) as [mt|] eqn:E.
  - apply IH in H. destruct H as (k & -> & -> & Hnone & Hsome & Hlen).
    pose proof (@sub_once_shorter _ _ _ _ Hp E) as Hs.
    exists (S k). simpl. split; [lia|]. split; [reflexivity|].
    split; [exact Hnone|]. split; [|lia].
    intros [|j] Hj; simpl; [congruence|]. apply Hsome. lia.
  - inversion H; subst. exists 0. simpl.
    split; [lia|]. split; [reflexivity|]. split; [exact E|].
    split; [|lia]. intros j Hj. lia.
Qed.
End WhileSub.

Lemma run_loop_total p st :
  length new_auth_code < min_len p ->
  exists res, AuthPatternsV2.run_loop p st = Some res.
Proof.
  intros Hp. unfold AuthPatternsV2.run_loop. apply while_sub_total; auto.
Qed.

Lemma run_loop_length p st c' n' :
  length new_auth_code < min_len p ->
  AuthPatternsV2.run_loop p st = Some (c', n') ->
  snd st <= n' /\ length c' + (n' - snd st) <= length (fst st).
Proof.
  intros Hp H. unfold AuthPatternsV2.run_loop in H.
  apply (while_sub_spec _ Hp) in H.
  destruct H as (k & -> & _ & _ & _ & Hlen). split; lia.
Qed.

(** The four loops end, and what they return is shorter than the text by
    at least the number of substitutions. *)
Lemma rewrite_total content :
  exists c' n, AuthPatternsV2.rewrite content = Some (c', n) /\
               length c' + n <= length content.
Proof.
  destruct v2_min_len as (H1 & H2 & H3 & H4).
  unfold AuthPatternsV2.rewrite.
  destruct (run_loop_total _ (content, 0) H1) as ([c1 n1] & E1).
  destruct (run_loop_total _ (c1, n1) H2) as ([c2 n2] & E2).
  destruct (run_loop_total _ (c2, n2) H3) as ([c3 n3] & E3).
  destruct (run_loop_total _ (c3, n3) H4) as ([c4 n4] & E4).
  rewrite E1; simpl. rewrite E2; simpl. rewrite E3; simpl. rewrite E4.
  exists c4, n4. split; [reflexivity|].
  apply (run_loop_length _ _ _ _ H1) in E1. apply (run_loop_length _ _ _ _ H2) in E2.
  apply (run_loop_length _ _ _ _ H3) in E3. apply (run_loop_length _ _ _ _ H4) in E4.
  simpl in *. lia.
Qed.

Lemma rewrite_changes content c' n :
  AuthPatternsV2.rewrite content = Some (c', n) -> 0 < n -> c' <> content.
Proof.
  intros H Hn ->.
  destruct (rewrite_total content) as (c1 & n1 & E & Hl).
  rewrite H in E. inversion E; subst. lia.
Qed.

(** C10, counterexample: in [Samples.nested2] the only match of pattern 2
    is the inner block; replacing it completes the outer block, so one
    match remains after the substitution as before it. *)
Lemma v2_matches_need_not_decrease :
  ~ matches_decrease AuthPatternsV2.pattern2 Samples.nested2.
Proof.
  unfold matches_decrease. intros H.
  assert (E : search AuthPatternsV2.pattern2 Samples.nested2 <> None)
    by (vm_compute; discriminate).
  specialize (H E). vm_compute in H. lia.
Qed.

(** C10, amended: each of the four loops of update_auth_patterns_v2.py
    ends, within as many iterations as the text has characters, because a
    single substitution replaces a match by the shorter replacement text:
    where the pattern matches, the substitution strictly shortens the text
    (where it does not, the text stays as it is). *)
Theorem v2_loops_terminate :
  Forall
    (fun p =>
       forall content n,
         (exists res,
            AuthPatternsV2.while_sub (S (length content)) p content n
            = Some res) /\
         match search p content with
         | Some _ =>
             length (sub p (fun _ => new_auth_code) content 1)
             < length content
         | None => sub p (fun _ => new_auth_code) content 1 = content
         end)
    [AuthPatternsV2.pattern1; AuthPatternsV2.pattern2;
     AuthPatternsV2.pattern3; AuthPatternsV2.pattern4].
Proof.
  destruct v2_min_len as (H1 & H2 & H3 & H4).
  assert (Hloop : forall p, length new_auth_code < min_len p ->
            forall content n,
              (exists res,
                 AuthPatternsV2.while_sub (S (length content)) p content n
                 = Some res) /\
              match search p content with
              | Some _ =>
                  length (sub p (fun _ => new_auth_code) content 1)
                  < length content
              | None => sub p (fun _ => new_auth_code) content 1 = content
              end).
  { intros p Hp content n. split.
    - apply while_sub_total; auto.
    - destruct (search p content) as [mt|] eqn:E.
      + eapply sub_once_shorter; eauto.
      + apply sub_none; exact E. }
  repeat (apply Forall_cons; [apply Hloop; assumption|]). apply Forall_nil.
Qed.

(* ================================================================== *)
(** * The runs of [update_file] *)

Lemma read_file_cases p w :
  (exists content, read_file p w = (Val content, w, [])) \/
  (exists e, read_file p w = (Exc e, w, [])).
Proof.
  unfold read_file. destruct (w_read_err w p); [right; eauto|].
  destruct (lookup p (w_files w)); [left|right]; eauto.
Qed.

Lemma audit_update_file_run p w :
  file_run p w (AuditLogging.update_file p w).
Proof.
  unfold AuditLogging.update_file, try_except, bind.
  destruct (read_file_cases p w) as [[content R]|[e R]]; rewrite R.
  2:{ simpl. now apply RunReadError. }
  destruct (negb (contains (T "prisma.auditLog.create") content)).
  { simpl. now apply (RunNoWrite p w content []); auto. }
  destruct (AuditLogging.step1 content 0) as [c1 n1].
  destruct (AuditLogging.step2 c1 n1) as [c2 n2].
  destruct ((0 <? n2) && negb (str_eqb c2 content)) eqn:G.
  2:{ simpl. now apply (RunNoWrite p w content []); auto. }
  apply andb_prop in G. destruct G as [_ G].
  apply negb_true_iff, str_eqb_neq in G.
  unfold write_file, print, ret.
  destruct (w_write_err w p) as [e|] eqn:W; simpl.
  - now apply RunWriteError with content.
  - now apply RunUpdated with content.
Qed.

Lemma auth_update_file_run p w :
  file_run p w (AuthPatterns.update_file p w).
Proof.
  unfold AuthPatterns.update_file, try_except, bind.
  destruct (read_file_cases p w) as [[content R]|[e R]]; rewrite R.
  2:{ simpl. now apply RunReadError. }
  destruct (negb (str_eqb (AuthPatterns.step2 (AuthPatterns.step1 content))
                    content)) eqn:G.
  2:{ simpl. now apply (RunNoWrite p w content [_]); auto. }
  apply negb_true_iff, str_eqb_neq in G.
  unfold write_file, print, ret.
  destruct (w_write_err w p) as [e|] eqn:W; simpl.
  - now apply RunWriteError with content.
  - now apply RunUpdated with content.
Qed.

Lemma v2_update_file_run p w :
  file_run p w (AuthPatternsV2.update_file p w).
Proof.
  unfold AuthPatternsV2.update_file, try_except, bind.
  destruct (read_file_cases p w) as [[content R]|[e R]]; rewrite R.
  2:{ simpl. now apply RunReadError. }
  destruct (rewrite_total content) as (c & n & E & Hl). rewrite E.
  destruct (0 <? n) eqn:G.
  2:{ simpl. now apply (RunNoWrite p w content [_]); auto. }
  apply Nat.ltb_lt in G.
  pose proof (rewrite_changes _ _ _ E G) as Hne.
  unfold write_file, print, ret.
  destruct (w_write_err w p) as [e|] eqn:W; simpl.
  - now apply RunWriteError with content.
  - now apply RunUpdated with content.
Qed.

(** What every run shape gives. *)
Lemma file_run_value p w r :
  file_run p w r -> exists b w' tr, r = (Val b, w', tr).
Proof. destruct 1; eauto. Qed.

Lemma writes_map_print ls : writes (map EvPrint ls) = [].
Proof. induction ls; simpl; auto. Qed.

Lemma file_run_writes p w r :
  file_run p w r ->
  length (writes (snd r)) <= 1 /\
  forall q c, In (q, c) (writes (snd r)) ->
    q = p /\ exists content,
      read_file p w = (Val content, w, []) /\ c <> content.
Proof.
  destruct 1; simpl.
  - split; [lia|tauto].
  - rewrite writes_map_print. simpl. split; [lia|tauto].
  - split; [lia|]. intros q c' [E|[]]. inversion E; subst. eauto.
  - split; [lia|]. intros q c' [E|[]]. inversion E; subst. eauto.
Qed.


(* ================================================================== *)
(** * Errors and the batch *)

Lemma file_run_failure uf p w e t0 w1 :
  file_run p w (uf p w) ->
  io_failure uf p w e t0 w1 ->
  uf p w = (Val false, w1, t0 ++ [EvPrint (error_line p e)]).
Proof.
  intros Hrun Hf. remember (uf p w) as r eqn:Hr.
  destruct Hf as [R|c W Hin].
  - destruct Hrun as [e' R'|content ls R' _|content c e' R' _ _
                     |content c l R' _ _]; try congruence.
    rewrite R in R'. inversion R'; subst. reflexivity.
  - rewrite <- Hr in Hin.
    destruct Hrun as [e' R'|content ls R' _|content c' e' R' _ W'
                     |content c' l R' _ W']; simpl in Hin.
    + destruct Hin.
    + rewrite writes_map_print in Hin. destruct Hin.
    + destruct Hin as [E|[]]. inversion E; subst.
      rewrite W in W'. inversion W'; subst. reflexivity.
    + congruence.
Qed.

Lemma scripts_file_run uf ua p w :
  In (uf, ua) scripts -> file_run p w (uf p w).
Proof.
  intros [E|[E|[E|[]]]]; inversion E; subst.
  - apply audit_update_file_run.
  - apply auth_update_file_run.
  - apply v2_update_file_run.
Qed.

Lemma path_exists_true p w :
  lookup p (w_files w) <> None -> path_exists p w = (Val true, w, []).
Proof.
  unfold path_exists. destruct (lookup p (w_files w)); congruence.
Qed.

Lemma bind_val {A B} (c : io A) (f : A -> io B) w a w1 t1 :
  c w = (Val a, w1, t1) -> bind c f w = after t1 (f a w1).
Proof. intros H. unfold bind, after. rewrite H. reflexivity. Qed.

Lemma after_nil {A} (r : outcome A * world * list event) : after [] r = r.
Proof. now destruct r as [[o w] t]. Qed.

Lemma after_after {A} t0 t1 (r : outcome A * world * list event) :
  after t0 (after t1 r) = after (t0 ++ t1) r.
Proof. destruct r as [[o w] t]. simpl. now rewrite app_assoc. Qed.

(** One step of each batch loop on a file that exists. *)
Lemma scripts_update_all_step uf ua p ps n w b w1 t1 :
  In (uf, ua) scripts ->
  lookup p (w_files w) <> None ->
  uf p w = (Val b, w1, t1) ->
  ua (p :: ps) n w = after t1 (ua ps (if b then n + 1 else n) w1).
Proof.
  intros [E|[E|[E|[]]]] Hex Hu; inversion E; subst; clear E;
    cbn [AuditLogging.update_all AuthPatterns.update_all
         AuthPatternsV2.update_all].
  - now rewrite (bind_val _ _ _ _ _ _ Hu).
  - rewrite (bind_val _ _ _ _ _ _ (path_exists_true _ _ Hex)), after_nil.
    erewrite bind_val; [|erewrite bind_val; [|exact Hu]; reflexivity].
    now rewrite app_nil_r.
  - rewrite (bind_val _ _ _ _ _ _ (path_exists_true _ _ Hex)), after_nil.
    erewrite bind_val; [|erewrite bind_val; [|exact Hu]; reflexivity].
    now rewrite app_nil_r.
Qed.

Lemma path_exists_false p w :
  lookup p (w_files w) = None -> path_exists p w = (Val false, w, []).
Proof. unfold path_exists. now intros ->. Qed.

(** One step of the two loops that test the path, on a missing file. *)
Lemma auth_update_all_missing p ps n w :
  lookup p (w_files w) = None ->
  AuthPatterns.update_all (p :: ps) n w =
  after [EvPrint (WARNING_SIGN ++ T "  File not found: " ++ p)]
    (AuthPatterns.update_all ps n w).
Proof.
  intros L. cbn [AuthPatterns.update_all].
  rewrite (bind_val _ _ _ _ _ _ (path_exists_false _ _ L)), after_nil.
  erewrite bind_val; [|reflexivity]. reflexivity.
Qed.

Lemma v2_update_all_missing p ps n w :
  lookup p (w_files w) = None ->
  AuthPatternsV2.update_all (p :: ps) n w =
  after [EvPrint (WARNING_SIGN ++ T "  File not found: " ++ p)]
    (AuthPatternsV2.update_all ps n w).
Proof.
  intros L. cbn [AuthPatternsV2.update_all].
  rewrite (bind_val _ _ _ _ _ _ (path_exists_false _ _ L)), after_nil.
  erewrite bind_val; [|reflexivity]. reflexivity.
Qed.

(** A batch loop always runs to its end. *)
Lemma scripts_update_all_total uf ua :
  In (uf, ua) scripts ->
  forall ps n w, exists k w' tr, ua ps n w = (Val k, w', tr).
Proof.
  intros Hin ps. induction ps as [|p ps IH]; intros n w.
  - destruct Hin as [E|[E|[E|[]]]]; inversion E; subst; simpl;
      unfold ret; eauto.
  - destruct (file_run_value _ _ _ (scripts_file_run _ _ p w Hin))
      as (b & w1 & t1 & Hu).
    destruct (lookup p (w_files w)) eqn:L.
    + assert (Hex : lookup p (w_files w) <> None) by congruence.
      rewrite (scripts_update_all_step _ _ _ ps n _ _ _ _ Hin Hex Hu).
      destruct (IH (if b then n + 1 else n) w1) as (k & w' & tr & ->).
      simpl. eauto.
    + destruct Hin as [E|[E|[E|[]]]]; inversion E; subst; clear E.
      * cbn [AuditLogging.update_all]. rewrite (bind_val _ _ _ _ _ _ Hu).
        destruct (IH (if b then n + 1 else n) w1) as (k & w' & tr & ->).
        simpl. eauto.
      * rewrite (auth_update_all_missing _ _ _ _ L).
        destruct (IH n w) as (k & w' & tr & ->). simpl. eauto.
      * rewrite (v2_update_all_missing _ _ _ _ L).
        destruct (IH n w) as (k & w' & tr & ->). simpl. eauto.
Qed.

Lemma writes_app t1 t2 : writes (t1 ++ t2) = writes t1 ++ writes t2.
Proof.
  induction t1 as [|[q c|l] t1 IH]; simpl; auto. now rewrite IH.
Qed.

Lemma snd_after {A} t0 (r : outcome A * world * list event) :
  snd (after t0 r) = t0 ++ snd r.
Proof. now destruct r as [[o w] t]. Qed.

(** One step of a batch loop, whether the file exists or not: what the
    step does to the outside, then the rest of the loop. *)
Lemma scripts_update_all_cons uf ua p ps n w :
  In (uf, ua) scripts ->
  exists t1 n1 w1,
    ua (p :: ps) n w = after t1 (ua ps n1 w1) /\
    length (writes t1) <= 1 /\
    forall q c, In (q, c) (writes t1) -> q = p.
Proof.
  intros Hin.
  pose proof (scripts_file_run _ _ p w Hin) as Hrun.
  destruct (file_run_value _ _ _ Hrun) as (b & w1 & t1 & Hu).
  pose proof (file_run_writes _ _ _ Hrun) as [Hl Hq]. rewrite Hu in Hl, Hq.
  simpl in Hl, Hq.
  assert (Hstep : ua (p :: ps) n w = after t1 (ua ps (if b then n + 1 else n) w1)
                  -> exists t1 n1 w1,
                       ua (p :: ps) n w = after t1 (ua ps n1 w1) /\
                       length (writes t1) <= 1 /\
                       forall q c, In (q, c) (writes t1) -> q = p).
  { intros E. exists t1, (if b then n + 1 else n), w1.
    split; [exact E|]. split; [exact Hl|].
    intros q c Hc. now destruct (Hq q c Hc). }
  destruct (lookup p (w_files w)) eqn:L.
  - apply Hstep. apply (scripts_update_all_step uf ua); auto. congruence.
  - destruct Hin as [E|[E|[E|[]]]]; inversion E; subst; clear E.
    + apply Hstep. cbn [AuditLogging.update_all].
      now rewrite (bind_val _ _ _ _ _ _ Hu).
    + eexists _, n, w. split; [apply (auth_update_all_missing _ _ _ _ L)|].
      simpl. split; [lia|tauto].
    + eexists _, n, w. split; [apply (v2_update_all_missing _ _ _ _ L)|].
      simpl. split; [lia|tauto].
Qed.

(** A batch loop writes only to its candidates, and to each of them at
    most once when no candidate is listed twice. *)
Lemma scripts_update_all_writes uf ua :
  In (uf, ua) scripts ->
  forall ps n w,
    (forall q c, In (q, c) (writes (snd (ua ps n w))) -> In q ps) /\
    (NoDup ps -> forall q, length (writes_to q (snd (ua ps n w))) <= 1).
Proof.
  intros Hin ps. induction ps as [|p ps IH]; intros n w.
  - assert (E : ua [] n w = (Val n, w, []))
      by (destruct Hin as [E|[E|[E|[]]]]; inversion E; subst; reflexivity).
    rewrite E. simpl. split; [tauto|]. intros _ q. unfold writes_to. simpl. lia.
  - destruct (scripts_update_all_cons uf ua p ps n w Hin)
      as (t1 & n1 & w1 & E & Hl & Hq).
    rewrite E, snd_after. destruct (IH n1 w1) as [IHin IHone].
    split.
    + intros q c Hc. rewrite writes_app in Hc. apply in_app_or in Hc.
      destruct Hc as [Hc|Hc]; [left; symmetry; eauto|right; eauto].
    + intros Hnd q. inversion Hnd as [|? ? Hnotin Hnd']; subst.
      unfold writes_to. rewrite writes_app, filter_app, length_app.
      fold (writes_to q (snd (ua ps n1 w1))).
      destruct (str_eqb p q) eqn:Q.
      * apply str_eqb_eq in Q. subst q.
        assert (Hz : writes_to p (snd (ua ps n1 w1)) = []).
        { unfold writes_to.
          destruct (filter _ (writes (snd (ua ps n1 w1)))) as [|[q c] l] eqn:F;
            [reflexivity|].
          assert (Hc : In (q, c) (filter (fun pc => str_eqb (fst pc) p)
                                    (writes (snd (ua ps n1 w1)))))
            by (rewrite F; now left).
          apply filter_In in Hc. destruct Hc as [Hc Hp]. simpl in Hp.
          apply str_eqb_eq in Hp. subst q. exfalso. eauto. }
        rewrite Hz. simpl.
        pose proof (filter_length_le (fun pc => str_eqb (fst pc) p) (writes t1)).
        lia.
      * assert (Hz : filter (fun pc => str_eqb (fst pc) q) (writes t1) = []).
        { destruct (filter _ (writes t1)) as [|[q' c] l] eqn:F; [reflexivity|].
          assert (Hc : In (q', c) (filter (fun pc => str_eqb (fst pc) q)
                                     (writes t1)))
            by (rewrite F; now left).
          apply filter_In in Hc. destruct Hc as [Hc Hp]. simpl in Hp.
          apply str_eqb_eq in Hp. subst q'. apply Hq in Hc. subst q.
          rewrite str_eqb_refl in Q. discriminate. }
        rewrite Hz. simpl. now apply IHone.
Qed.

(** C2: in each of the three scripts, a run of [update_file] on a file
    writes at most once, only to that file, and only a text that differs
    from the text read at the start (in particular, nothing is written
    when the read failed); and the loop of [main], run over candidates
    none of which is listed twice, writes each path at most once. *)
Theorem update_file_writes_once_and_only_changes :
  forall p w,
    Forall
      (fun script : (str -> io bool) * (list str -> nat -> io nat) =>
         let tr := snd (fst script p w) in
         (length (writes tr) <= 1 /\
          forall q c, In (q, c) (writes tr) ->
            q = p /\
            exists content,
              read_file p w = (Val content, w, []) /\ c <> content) /\
         forall candidates n q,
           NoDup candidates ->
           length (writes_to q (snd (snd script candidates n w))) <= 1)
      scripts.
Proof.
  intros p w.
  assert (H : forall uf ua, In (uf, ua) scripts ->
            (length (writes (snd (uf p w))) <= 1 /\
             forall q c, In (q, c) (writes (snd (uf p w))) ->
               q = p /\
               exists content,
                 read_file p w = (Val content, w, []) /\ c <> content) /\
            forall candidates n q,
              NoDup candidates ->
              length (writes_to q (snd (ua candidates n w))) <= 1).
  { intros uf ua Hin. split.
    - apply file_run_writes. apply (scripts_file_run uf ua p w Hin).
    - intros ps n q Hnd.
      now apply (scripts_update_all_writes uf ua Hin ps n w). }
  unfold scripts.
  repeat (apply Forall_cons; [apply H; simpl; auto|]). apply Forall_nil.
Qed.

(** C8: in each of the three scripts, when reading the candidate file or
    writing its new text raises an exception with message [e],
    [update_file] catches it: it prints the line
    [<cross> Error updating <path>: <e>] and returns False.  The file
    system it leaves is [w1]: the one there was when the read raised or
    when [open(path, 'w')] raised; when the exception came after the file
    was opened for writing, the one in which the file holds the part of the
    new text that was written, and nothing else has changed.  The loop of
    [main] then goes on, in that file system, with the remaining
    candidates, after no more than the lines of this one, and runs to its
    end. *)
Theorem per_file_errors_are_caught :
  forall update_file update_all p w e t0 w1 ps n,
    In (update_file, update_all) scripts ->
    io_failure update_file p w e t0 w1 ->
    update_file p w = (Val false, w1, t0 ++ [EvPrint (error_line p e)]) /\
    (w1 = w \/
     exists content c k,
       read_file p w = (Val content, w, []) /\ c <> content /\
       t0 = [EvWrite p c] /\ w1 = store p (firstn k c) w) /\
    (lookup p (w_files w) <> None ->
     update_all (p :: ps) n w =
     after (t0 ++ [EvPrint (error_line p e)]) (update_all ps n w1)) /\
    exists k w' tr, update_all ps n w1 = (Val k, w', tr).
Proof.
  intros uf ua p w e t0 w1 ps n Hin Hf.
  pose proof (scripts_file_run _ _ p w Hin) as Hrun.
  pose proof (file_run_failure _ _ _ _ _ _ Hrun Hf) as Hu.
  split; [exact Hu|]. split; [|split].
  - destruct Hf as [R|c W Hc]; [now left|].
    destruct (proj2 (file_run_writes _ _ _ Hrun) p c Hc)
      as (_ & content & R & Hne).
    unfold failed_write. destruct (w_write_kept w p) as [k|]; [|now left].
    right. exists content, c, k. auto.
  - intros Hex.
    now rewrite (scripts_update_all_step _ _ _ ps n _ _ _ _ Hin Hex Hu).
  - now apply (scripts_update_all_total uf ua).
Qed.

(** C8, witness: writing the first of two candidates fails when the first
    22 characters of the new text are in the file; the version 2 script
    reports it, leaves the file with these characters and goes on with the
    second candidate. *)
Lemma per_file_errors_witness :
  AuthPatternsV2.update_file route full_world
  = (Val false, store route (T "// Authorization check") full_world,
     [EvWrite route new_auth_code; EvPrint (error_line route no_space)]) /\
  AuthPatternsV2.update_all [route; route2] 0 full_world =
  after [EvWrite route new_auth_code; EvPrint (error_line route no_space)]
    (AuthPatternsV2.update_all [route2] 0
       (store route (T "// Authorization check") full_world)) /\
  exists k w' tr,
    AuthPatternsV2.update_all [route2] 0
      (store route (T "// Authorization check") full_world)
    = (Val k, w', tr).
Proof.
  destruct (per_file_errors_are_caught AuthPatternsV2.update_file
              AuthPatternsV2.update_all route full_world no_space
              [EvWrite route new_auth_code]
              (store route (T "// Authorization check") full_world)
              [route2] 0) as (H1 & _ & H2 & H3).
  - simpl. auto.
  - apply (WriteFails AuthPatternsV2.update_file route full_world no_space
             new_auth_code); [reflexivity|].
    vm_compute. left. reflexivity.
  - split; [exact H1|]. split; [|exact H3].
    apply H2. vm_compute. discriminate.
Defined.

(* ================================================================== *)
(** * The console report *)

(** C9, counterexample: update_audit_logging.py on these two candidates
    prints the two summary lines only; neither path is named, and the
    unreadable file is not counted in the total. *)
Lemma audit_main_drops_candidates :
  prints (snd (AuditLogging.main [route; route2] audit_world))
  = [ARROWS ++ T " Found 1 files with audit logging...";
     [LF] ++ SPARKLES ++ T " Complete! Updated 0/1 files"] /\
  ~ every_fate_reported [route; route2]
      (snd (AuditLogging.main [route; route2] audit_world)).
Proof.
  assert (E : prints (snd (AuditLogging.main [route; route2] audit_world))
              = [ARROWS ++ T " Found 1 files with audit logging...";
                 [LF] ++ SPARKLES ++ T " Complete! Updated 0/1 files"])
    by (vm_compute; reflexivity).
  split; [exact E|]. intros H.
  destruct (H route (or_introl eq_refl)) as (l & Hin & Hc).
  rewrite E in Hin. destruct Hin as [<-|[<-|[]]]; vm_compute in Hc;
    discriminate.
Qed.

Lemma same_files_refl w : same_files w w.
Proof. intros q. tauto. Qed.

Lemma same_files_store w0 w p c content :
  same_files w0 w ->
  read_file p w = (Val content, w, []) ->
  same_files w0 (store p c w).
Proof.
  intros H R q. rewrite <- (H q). simpl.
  destruct (str_eqb q p) eqn:E; [|tauto].
  apply str_eqb_eq in E. subst q.
  unfold read_file in R. destruct (w_read_err w p); [discriminate|].
  destruct (lookup p (w_files w)); [|discriminate].
  split; discriminate.
Qed.

Lemma same_files_failed_write w0 w p c content :
  same_files w0 w ->
  read_file p w = (Val content, w, []) ->
  same_files w0 (failed_write p c w).
Proof.
  intros H R. unfold failed_write.
  destruct (w_write_kept w p); [eapply same_files_store; eauto|exact H].
Qed.

Lemma prints_app t1 t2 : prints (t1 ++ t2) = prints t1 ++ prints t2.
Proof.
  induction t1 as [|[q c|l] t1 IH]; simpl; auto. now rewrite IH.
Qed.

Lemma same_files_trans w0 w1 w2 :
  same_files w0 w1 -> same_files w1 w2 -> same_files w0 w2.
Proof. intros H1 H2 q. rewrite (H2 q). apply H1. Qed.

(* ================================================================== *)
(** * update_audit_logging.py: blocks that cannot be parsed *)

(** C1: when the userId, action or resource field cannot be extracted
    from a matched audit-log block, [replace_audit_log] returns the matched
    text itself; so in the output of the substitution such an occurrence
    stands as it stood in the input: the output is the input with, between
    the same gaps, every occurrence either kept verbatim (fields missing)
    or replaced by the new call. *)
Theorem replace_audit_log_declines :
  forall mt,
    fields_missing mt = true ->
    AuditLogging.replace_audit_log mt = group mt 0 /\
    forall content,
      let ms := finditer AuditLogging.pattern content in
      content = rebuild (fun mt' => group mt' 0) ms content /\
      sub AuditLogging.pattern AuditLogging.replace_audit_log content 0
      = rebuild
          (fun mt' =>
             if fields_missing mt' then group mt' 0
             else AuditLogging.replace_audit_log mt')
          ms content.
Proof.
  assert (Hdecl : forall mt, fields_missing mt = true ->
                    AuditLogging.replace_audit_log mt = group mt 0).
  { intros mt H. unfold fields_missing in H.
    unfold AuditLogging.replace_audit_log.
    destruct (search AuditLogging.user_id_re (group mt 1)); auto.
    destruct (search AuditLogging.action_re (group mt 1)); auto.
    destruct (search AuditLogging.resource_re (group mt 1)); auto.
    discriminate. }
  intros mt H. split; [now apply Hdecl|].
  intros content ms. split.
  - symmetry. apply (rebuild_text AuditLogging.pattern).
  - unfold sub. rewrite subn_rebuild. simpl. apply rebuild_ext.
    intros mt' _. destruct (fields_missing mt') eqn:E; auto.
Qed.

(** C1, witness: [bad_block] is matched, has no action field, and is
    returned as it is. *)
Lemma replace_audit_log_declines_witness :
  exists mt,
    search AuditLogging.pattern (T "x" ++ bad_block ++ T "y") = Some mt /\
    m_text mt = bad_block /\
    AuditLogging.replace_audit_log mt = group mt 0.
Proof.
  eexists. split; [vm_compute; reflexivity|].
  split; [vm_compute; reflexivity|].
  apply replace_audit_log_declines. vm_compute. reflexivity.
Defined.

(* ================================================================== *)
(** * The import step *)

(** C7, failing input: the text does not mention logAudit; one run of
    update_audit_logging.py inserts the import line after each of the two
    anchors, so the file written holds two copies of it, and a second run
    leaves them there. *)
Lemma audit_import_inserted_twice :
  contains (T "logAudit") two_anchors = false /\
  exists c w1 l,
    AuditLogging.update_file route (one_file route two_anchors)
    = (Val true, w1, [EvWrite route c; EvPrint l]) /\
    str_count AuditLogging.import_line c = 2 /\
    AuditLogging.update_file route w1 = (Val false, w1, []) /\
    lookup route (w_files w1) = Some c.
Proof.
  split; [vm_compute; reflexivity|].
  eexists _, _, _. split; [vm_compute; reflexivity|].
  split; [vm_compute; reflexivity|].
  split; vm_compute; reflexivity.
Qed.

(** C3, counterexample: the helper symbol occurs in [half_migrated], and
    update_auth_patterns.py still rewrites its legacy block and writes the
    file. *)
Lemma auth_helper_present_still_rewrites :
  contains (T "requireAdminRole") half_migrated = true /\
  AuthPatterns.update_file route (one_file route half_migrated)
  = (Val true, store route migrated (one_file route half_migrated),
     [EvWrite route migrated; EvPrint (updated_line route)]) /\
  migrated <> half_migrated.
Proof.
  split; [vm_compute; reflexivity|].
  split; [vm_compute; reflexivity|].
  intros H. apply (f_equal (@length ascii)) in H. vm_compute in H.
  discriminate.
Qed.

Lemma auth_step2_none content :
  search AuthPatterns.pattern1 content = None ->
  search AuthPatterns.pattern2 content = None ->
  AuthPatterns.step2 content = content.
Proof.
  intros H1 H2. unfold AuthPatterns.step2.
  now rewrite (sub_none _ _ _ _ H1), (sub_none _ _ _ _ H2).
Qed.

Lemma auth_step1_helper content :
  contains (T "requireAdminRole") content = true ->
  AuthPatterns.step1 content = content.
Proof. intros H. unfold AuthPatterns.step1. now rewrite H. Qed.

Lemma audit_step1_helper content n :
  contains (T "logAudit") content = true ->
  AuditLogging.step1 content n = (content, n).
Proof. intros H. unfold AuditLogging.step1. now rewrite H. Qed.

Lemma audit_step2_none content n :
  search AuditLogging.pattern content = None ->
  AuditLogging.step2 content n = (content, n).
Proof.
  intros H. unfold AuditLogging.step2.
  now rewrite (sub_none _ _ _ _ H), str_eqb_refl.
Qed.

(** What update_auth_patterns.py does with a text its two steps leave as
    it is. *)
Lemma auth_update_file_unchanged p w content :
  read_file p w = (Val content, w, []) ->
  AuthPatterns.step2 (AuthPatterns.step1 content) = content ->
  AuthPatterns.update_file p w = (Val false, w, [EvPrint (unchanged_line p)]).
Proof.
  intros R H. unfold AuthPatterns.update_file, try_except, bind.
  rewrite R, H, str_eqb_refl. reflexivity.
Qed.

Lemma audit_update_file_unchanged p w content :
  read_file p w = (Val content, w, []) ->
  (contains (T "prisma.auditLog.create") content = true ->
   exists n, AuditLogging.step1 content 0 = (content, n) /\
             AuditLogging.step2 content n = (content, n)) ->
  AuditLogging.update_file p w = (Val false, w, []).
Proof.
  intros R H. unfold AuditLogging.update_file, try_except, bind. rewrite R.
  destruct (contains (T "prisma.auditLog.create") content); simpl;
    [|reflexivity].
  destruct (H eq_refl) as (n & -> & ->).
  rewrite str_eqb_refl, andb_false_r. reflexivity.
Qed.

(** C3, amended: when the helper symbol already occurs in the text,
    [update_file] of update_auth_patterns.py and of update_audit_logging.py
    skips the import step only; the legacy blocks are rewritten all the
    same.  The text stays as it is and the file is not written when, in
    addition, no legacy pattern matches. *)
Theorem already_migrated_file_is_left_alone :
  forall content p w,
    read_file p w = (Val content, w, []) ->
    (contains (T "requireAdminRole") content = true ->
     AuthPatterns.step1 content = content) /\
    (contains (T "logAudit") content = true ->
     AuditLogging.step1 content 0 = (content, 0)) /\
    (already_migrated (T "requireAdminRole")
       [AuthPatterns.pattern1; AuthPatterns.pattern2] content ->
     AuthPatterns.update_file p w
     = (Val false, w, [EvPrint (unchanged_line p)])) /\
    (already_migrated (T "logAudit") [AuditLogging.pattern] content ->
     AuditLogging.update_file p w = (Val false, w, [])).
Proof.
  intros content p w R.
  split; [apply auth_step1_helper|].
  split; [apply audit_step1_helper|].
  split.
  - intros [Hh Hp]. inversion Hp as [|? ? H1 Hp']; subst.
    inversion Hp' as [|? ? H2 _]; subst.
    apply (auth_update_file_unchanged p w content R).
    rewrite (auth_step1_helper _ Hh). now apply auth_step2_none.
  - intros [Hh Hp]. inversion Hp as [|? ? H1 _]; subst.
    apply (audit_update_file_unchanged p w content R).
    intros _. exists 0. split.
    + now apply audit_step1_helper.
    + now apply audit_step2_none.
Qed.

(** C3, witness: a file with the helper import and no legacy block. *)
Lemma already_migrated_witness :
  AuthPatterns.update_file route (one_file route migrated)
  = (Val false, one_file route migrated, [EvPrint (unchanged_line route)]).
Proof.
  apply (already_migrated_file_is_left_alone migrated route
           (one_file route migrated) eq_refl).
  split; [vm_compute; reflexivity|].
  repeat constructor; vm_compute; reflexivity.
Defined.

(* ================================================================== *)
(** * A text without a match *)



(* ================================================================== *)
(** * The import step without a rewrite *)

(** C5, counterexample: no legacy pattern matches [imports_only], before
    or after the import step, and update_auth_patterns.py still removes the
    old import, inserts the new one and writes the file. *)
Lemma auth_import_step_without_rewrite :
  Forall (fun r => search r imports_only = None
                   /\ search r imports_only_after = None)
    [AuthPatterns.pattern1; AuthPatterns.pattern2] /\
  AuthPatterns.update_file route (one_file route imports_only)
  = (Val true, store route imports_only_after (one_file route imports_only),
     [EvWrite route imports_only_after; EvPrint (updated_line route)]) /\
  imports_only_after <> imports_only.
Proof.
  split; [repeat constructor; vm_compute; reflexivity|].
  split; [vm_compute; reflexivity|].
  intros H. apply (f_equal (@length ascii)) in H. vm_compute in H.
  discriminate.
Qed.

Lemma audit_step1_count content c1 n1 :
  AuditLogging.step1 content 0 = (c1, n1) ->
  c1 <> content -> n1 = 1.
Proof.
  unfold AuditLogging.step1. intros H Hne.
  destruct (negb (contains (T "logAudit") content));
    [destruct (contains AuditLogging.anchor content)|];
    inversion H; subst; congruence.
Qed.

(** C5, amended: the import step comes first and does not depend on the
    rewrite rules.  It is skipped when the helper symbol occurs in the
    text read: then no line is inserted and no import line removed or
    altered.  Otherwise it is performed, whether or not a legacy pattern
    is rewritten afterwards: when none matches, the file is written if and
    only if the import step changed the text, and what is written is the
    result of the import step. *)
Theorem import_step_is_independent_of_rewrites :
  forall content p w,
    read_file p w = (Val content, w, []) ->
    (contains (T "requireAdminRole") content = true ->
     AuthPatterns.step1 content = content) /\
    (contains (T "logAudit") content = true ->
     forall n, AuditLogging.step1 content n = (content, n)) /\
    (Forall (fun r => search r (AuthPatterns.step1 content) = None)
       [AuthPatterns.pattern1; AuthPatterns.pattern2] ->
     writes (snd (AuthPatterns.update_file p w))
     = if str_eqb (AuthPatterns.step1 content) content then []
       else [(p, AuthPatterns.step1 content)]) /\
    (contains (T "prisma.auditLog.create") content = true ->
     search AuditLogging.pattern (fst (AuditLogging.step1 content 0)) = None ->
     writes (snd (AuditLogging.update_file p w))
     = if str_eqb (fst (AuditLogging.step1 content 0)) content then []
       else [(p, fst (AuditLogging.step1 content 0))]).
Proof.
  intros content p w R.
  split; [apply auth_step1_helper|].
  split; [intros H n; now apply audit_step1_helper|].
  split.
  - intros Hp. inversion Hp as [|? ? H1 Hp']; subst.
    inversion Hp' as [|? ? H2 _]; subst.
    unfold AuthPatterns.update_file, try_except, bind. rewrite R.
    rewrite (auth_step2_none _ H1 H2).
    destruct (str_eqb (AuthPatterns.step1 content) content); simpl;
      [reflexivity|].
    unfold write_file. destruct (w_write_err w p); reflexivity.
  - intros Hc Hp.
    unfold AuditLogging.update_file, try_except, bind. rewrite R, Hc.
    destruct (AuditLogging.step1 content 0) as [c1 n1] eqn:E1.
    simpl in Hp |- *. rewrite (audit_step2_none _ n1 Hp).
    destruct (str_eqb c1 content) eqn:Q.
    + rewrite andb_false_r. reflexivity.
    + apply str_eqb_neq in Q. rewrite (audit_step1_count _ _ _ E1 Q).
      simpl. unfold write_file. destruct (w_write_err w p); reflexivity.
Qed.

(** C5, witness: on [imports_only] no rule fires and the result of the
    import step is written. *)
Lemma import_step_witness :
  writes (snd (AuthPatterns.update_file route (one_file route imports_only)))
  = [(route, imports_only_after)].
Proof.
  destruct (import_step_is_independent_of_rewrites imports_only route
              (one_file route imports_only) eq_refl) as (_ & _ & H & _).
  rewrite H.
  - vm_compute. reflexivity.
  - repeat constructor; vm_compute; reflexivity.
Defined.

(* ================================================================== *)
(** * How many occurrences are converted *)

(** C6, counterexample: one scan of [Samples.nested2] finds one occurrence
    of pattern 2 and none of the other patterns, and the loops of
    update_auth_patterns_v2.py make two substitutions: the run reports
    two handlers. *)
Lemma v2_count_exceeds_occurrences :
  map (fun p => length (finditer p Samples.nested2))
    [AuthPatternsV2.pattern1; AuthPatternsV2.pattern2;
     AuthPatternsV2.pattern3; AuthPatternsV2.pattern4]
  = [0; 1; 0; 0] /\
  AuthPatternsV2.rewrite Samples.nested2 = Some (new_auth_code, 2) /\
  prints (snd (AuthPatternsV2.update_file route
                 (one_file route Samples.nested2)))
  = [CHECK_MARK ++ T " Updated " ++ route ++ T " (2 handler(s))"].
Proof. repeat split; vm_compute; reflexivity. Qed.

(** C6, amended.  update_auth_patterns.py: each of its two substitutions
    replaces, in one pass from left to right, exactly the non-overlapping
    occurrences the pass finds in the text it is given, each of them once,
    and keeps the text between them.  update_auth_patterns_v2.py: one
    iteration of a loop replaces exactly the leftmost occurrence and adds
    one to the count; the loop stops when the pattern matches no more, so
    the count is the number of substitutions made ([k] below), each made
    on a text that had an occurrence.  (That number can exceed the number
    of occurrences in the text read: a replacement can complete a new
    occurrence out of the text around it.) *)
Theorem occurrences_converted :
  forall content,
    (let ms1 := finditer AuthPatterns.pattern1 content in
     let c1 := rebuild (fun _ => new_auth_code) ms1 content in
     let ms2 := finditer AuthPatterns.pattern2 c1 in
     content = rebuild m_text ms1 content /\
     c1 = rebuild m_text ms2 c1 /\
     AuthPatterns.step2 content = rebuild (fun _ => new_auth_code) ms2 c1 /\
     subn AuthPatterns.pattern1 (fun _ => new_auth_code) content 0
     = (c1, length ms1)) /\
    Forall
      (fun p =>
         (forall n, exists k,
            AuthPatternsV2.run_loop p (content, n)
            = Some (subs p k content, n + k) /\
            search p (subs p k content) = None /\
            forall j, j < k -> search p (subs p j content) <> None) /\
         (forall mt, search p content = Some mt ->
            content = m_pre mt ++ m_text mt ++ m_rest mt /\
            sub p (fun _ => new_auth_code) content 1
            = m_pre mt ++ new_auth_code ++ m_rest mt))
      [AuthPatternsV2.pattern1; AuthPatternsV2.pattern2;
       AuthPatternsV2.pattern3; AuthPatternsV2.pattern4].
Proof.
  intros content. split.
  - cbv zeta. repeat split.
    + symmetry. apply rebuild_text.
    + symmetry. apply rebuild_text.
    + unfold AuthPatterns.step2, sub. now rewrite !subn_rebuild.
    + apply subn_rebuild.
  - destruct v2_min_len as (H1 & H2 & H3 & H4).
    assert (Hloop : forall p, length new_auth_code < min_len p ->
      (forall n, exists k,
         AuthPatternsV2.run_loop p (content, n)
         = Some (subs p k content, n + k) /\
         search p (subs p k content) = None /\
         forall j, j < k -> search p (subs p j content) <> None) /\
      (forall mt, search p content = Some mt ->
         content = m_pre mt ++ m_text mt ++ m_rest mt /\
         sub p (fun _ => new_auth_code) content 1
         = m_pre mt ++ new_auth_code ++ m_rest mt)).
    { intros p Hp. split.
      - intros n. destruct (run_loop_total p (content, n) Hp) as ([c' n'] & E).
        pose proof E as E'. unfold AuthPatternsV2.run_loop in E'.
        apply (while_sub_spec _ Hp) in E'.
        destruct E' as (k & -> & -> & Hnone & Hsome & _).
        exists k. auto.
      - intros mt E. split.
        + now apply search_inv in E.
        + now apply sub_once. }
    repeat (apply Forall_cons; [apply Hloop; assumption|]). apply Forall_nil.
Qed.

(* ================================================================== *)
(** * Further properties of the scripts *)

(** [sub in s] says that [s] splits around an occurrence of [sub]. *)
Lemma contains_split x : forall s,
  contains x s = true <-> exists a b, s = a ++ x ++ b.
Proof.
  induction s as [|c s IH].
  - simpl. destruct (strip_prefix x []) as [r|] eqn:E.
    + apply strip_prefix_app in E. split; [|reflexivity].
      intros _. exists [], r. exact E.
    + split; [discriminate|]. intros (a & b & H).
      destruct a; [|discriminate]. simpl in H.
      apply strip_prefix_app in H. congruence.
  - cbn [contains]. destruct (strip_prefix x (c :: s)) as [r|] eqn:E.
    + apply strip_prefix_app in E. split; [|reflexivity].
      intros _. exists [], r. exact E.
    + rewrite IH. split.
      * intros (a & b & ->). exists (c :: a), b. reflexivity.
      * intros (a & b & H). destruct a as [|d a].
        -- simpl in H. apply strip_prefix_app in H. congruence.
        -- inversion H; subst. eauto.
Qed.

Lemma contains_middle x a b : contains x (a ++ x ++ b) = true.
Proof. apply contains_split. eauto. Qed.

Lemma contains_app_l x a b :
  contains x a = true -> contains x (a ++ b) = true.
Proof.
  intros H. apply contains_split in H. destruct H as (u & v & ->).
  apply contains_split. exists u, (v ++ b). now rewrite <- !app_assoc.
Qed.

Lemma contains_app_r x a b :
  contains x b = true -> contains x (a ++ b) = true.
Proof.
  intros H. apply contains_split in H. destruct H as (u & v & ->).
  apply contains_split. exists (a ++ u), v. now rewrite <- !app_assoc.
Qed.

Lemma contains_trans x y s :
  contains x y = true -> contains y s = true -> contains x s = true.
Proof.
  intros H1 H2. apply contains_split in H2. destruct H2 as (u & v & ->).
  apply contains_app_r, contains_app_l, H1.
Qed.

(** Replacing a text that occurs puts the new text in. *)
Lemma str_replace_contains old new : forall s,
  old <> [] ->
  contains old s = true ->
  contains new (str_replace old new s) = true.
Proof.
  unfold str_replace. intros s Hold.
  induction s as [|c s IH]; intros H.
  - simpl in H. destruct old; [congruence|discriminate].
  - cbn [contains] in H. cbn [replace_go].
    destruct (strip_prefix old (c :: s)) as [r|].
    + apply contains_app_l. apply contains_split. exists [], [].
      now rewrite app_nil_r.
    + apply (contains_app_r new [c]). now apply IH.
Qed.

(** ** update_audit_logging.py: what is written names the helper *)

Lemma new_call_contains user_id action resource resource_id details :
  contains (T "logAudit")
    (AuditLogging.new_call user_id action resource resource_id details)
  = true.
Proof.
  apply contains_split.
  exists (T "// Audit log" ++ [LF] ++ T "    await ").
  eexists. unfold AuditLogging.new_call. cbn. reflexivity.
Qed.

(** [replace_audit_log] returns the match itself or the new call. *)
Lemma replace_audit_log_cases mt :
  AuditLogging.replace_audit_log mt = m_text mt \/
  contains (T "logAudit") (AuditLogging.replace_audit_log mt) = true.
Proof.
  unfold AuditLogging.replace_audit_log.
  destruct (search AuditLogging.user_id_re (group mt 1)); auto.
  destruct (search AuditLogging.action_re (group mt 1)); auto.
  destruct (search AuditLogging.resource_re (group mt 1));
    [right; apply new_call_contains | now left].
Qed.

(** A scan rebuilt with pieces that are the match itself or hold [x] is the
    text rebuilt with the matches, or holds [x]. *)
Lemma rebuild_contains x f : forall ms s,
  (forall mt, In mt ms -> f mt = m_text mt \/ contains x (f mt) = true) ->
  rebuild f ms s = rebuild m_text ms s \/
  contains x (rebuild f ms s) = true.
Proof.
  induction ms as [|mt ms IH]; intros s H; simpl; [now left|].
  destruct (H mt (or_introl eq_refl)) as [E|E].
  - destruct (IH (m_rest mt) (fun mt' Hin => H mt' (or_intror Hin)))
      as [E'|E'].
    + left. now rewrite E, E'.
    + right. now apply contains_app_r, contains_app_r.
  - right. now apply contains_app_r, contains_app_l.
Qed.

Lemma audit_sub_cases content :
  sub AuditLogging.pattern AuditLogging.replace_audit_log content 0 = content
  \/ contains (T "logAudit")
       (sub AuditLogging.pattern AuditLogging.replace_audit_log content 0)
     = true.
Proof.
  unfold sub. rewrite subn_rebuild. simpl.
  destruct (rebuild_contains (T "logAudit") AuditLogging.replace_audit_log
              (finditer AuditLogging.pattern content) content
              (fun mt _ => replace_audit_log_cases mt)) as [E|E]; auto.
  left. rewrite E. apply (rebuild_text AuditLogging.pattern).
Qed.

(** Step 2 keeps the helper symbol, and puts it in when it counts a
    change. *)
Lemma audit_step2_helper content n c' n' :
  AuditLogging.step2 content n = (c', n') ->
  (contains (T "logAudit") content = true \/ n' <> n) ->
  contains (T "logAudit") c' = true.
Proof.
  unfold AuditLogging.step2. intros H Hc.
  destruct (audit_sub_cases content) as [E|E].
  - rewrite E, str_eqb_refl in H. simpl in H. inversion H; subst.
    destruct Hc; [assumption|congruence].
  - destruct (negb (str_eqb _ content)); inversion H; subst; auto.
    destruct Hc; [assumption|congruence].
Qed.

Lemma audit_step1_helper_after content c1 n1 :
  AuditLogging.step1 content 0 = (c1, n1) ->
  (n1 = 0 /\ c1 = content) \/ contains (T "logAudit") c1 = true.
Proof.
  unfold AuditLogging.step1. intros H.
  destruct (negb (contains (T "logAudit") content)).
  - destruct (contains AuditLogging.anchor content) eqn:A;
      inversion H; subst; auto.
    right. apply contains_trans with (y := AuditLogging.anchor ++ [LF] ++
                                            AuditLogging.import_line).
    + vm_compute. reflexivity.
    + apply str_replace_contains; [discriminate|exact A].
  - inversion H; subst; auto.
Qed.

(** X1: whatever update_audit_logging.py writes to a file contains the
    helper symbol logAudit; so on the file it has written, a later run
    skips the import step. *)
Theorem audit_written_text_names_helper :
  forall p w q c,
    In (q, c) (writes (snd (AuditLogging.update_file p w))) ->
    contains (T "logAudit") c = true /\
    forall n, AuditLogging.step1 c n = (c, n).
Proof.
  intros p w q c Hin.
  assert (Hc : contains (T "logAudit") c = true).
  { revert Hin. unfold AuditLogging.update_file, try_except, bind.
    destruct (read_file_cases p w) as [[content R]|[e R]]; rewrite R;
      [|simpl; tauto].
    destruct (negb (contains (T "prisma.auditLog.create") content));
      [simpl; tauto|].
    destruct (AuditLogging.step1 content 0) as [c1 n1] eqn:E1.
    destruct (AuditLogging.step2 c1 n1) as [c2 n2] eqn:E2.
    destruct ((0 <? n2) && negb (str_eqb c2 content)) eqn:G;
      [|simpl; tauto].
    apply andb_prop in G. destruct G as [G _]. apply Nat.ltb_lt in G.
    assert (H2 : contains (T "logAudit") c2 = true).
    { apply (audit_step2_helper c1 n1 c2 n2 E2).
      destruct (audit_step1_helper_after _ _ _ E1) as [[-> _]|H1];
        [right; lia|now left]. }
    unfold write_file, print, ret.
    destruct (w_write_err w p); simpl; intros [E|[]]; inversion E; subst;
      exact H2. }
  split; [exact Hc|]. intros n. now apply audit_step1_helper.
Qed.

(** X1, witness: the file written for [two_anchors]. *)
Lemma audit_written_text_witness :
  exists c,
    In (route, c)
      (writes (snd (AuditLogging.update_file route
                      (one_file route two_anchors)))) /\
    contains (T "logAudit") c = true.
Proof.
  eexists. split.
  - vm_compute. left. reflexivity.
  - eapply (audit_written_text_names_helper route
              (one_file route two_anchors) route).
    vm_compute. left. reflexivity.
Defined.

(** ** update_auth_patterns.py: a converted block is always written *)

Lemma finditer_search r s mt :
  search r s = Some mt -> exists ms, finditer r s = mt :: ms.
Proof.
  unfold finditer, search. intros H.
  replace (2 * length s + 2) with (S (2 * length s + 1)) by lia.
  cbn [finditer_go]. rewrite H. eauto.
Qed.

Lemma finditer_min_len r s mt :
  In mt (finditer r s) -> min_len r <= length (m_text mt).
Proof. apply finditer_go_min_len. Qed.

(** Replacing matches that are all longer than the new text shortens the
    text, by one character a match at least. *)
Lemma rebuild_length (new : str) : forall ms s,
  (forall mt, In mt ms -> length new < length (m_text mt)) ->
  length (rebuild (fun _ => new) ms s) + length ms
  <= length (rebuild m_text ms s).
Proof.
  induction ms as [|mt ms IH]; intros s H; simpl; [lia|].
  pose proof (H mt (or_introl eq_refl)).
  pose proof (IH (m_rest mt) (fun mt' Hin => H mt' (or_intror Hin))).
  rewrite !length_app. lia.
Qed.

Lemma sub_all_length r (new : str) s :
  length new < min_len r ->
  length (sub r (fun _ => new) s 0) + length (finditer r s) <= length s.
Proof.
  intros Hlen. unfold sub. rewrite subn_rebuild. simpl.
  pose proof (rebuild_length new (finditer r s) s) as H.
  assert (E : rebuild m_text (finditer r s) s = s)
    by apply (rebuild_text r (2 * length s + 2) s false).
  rewrite E in H.
  apply H. intros mt Hin.
  pose proof (finditer_min_len r s mt Hin). lia.
Qed.

Lemma sub_all_contains r (new : str) s mt :
  search r s = Some mt ->
  contains new (sub r (fun _ => new) s 0) = true.
Proof.
  intros H. destruct (finditer_search _ _ _ H) as (ms & E).
  unfold sub. rewrite subn_rebuild, E. simpl.
  apply contains_app_r, contains_app_l.
  apply contains_split. exists [], []. now rewrite app_nil_r.
Qed.

Lemma auth_min_len :
  length new_auth_code < min_len AuthPatterns.pattern1 /\
  length new_auth_code < min_len AuthPatterns.pattern2.
Proof. vm_compute. split; lia. Qed.

Lemma new_auth_code_names_helper :
  contains (T "requireAdminRole") new_auth_code = true.
Proof. vm_compute. reflexivity. Qed.

(** Step 2 on a text in which one of its patterns matches. *)
Lemma auth_step2_converts c0 :
  search AuthPatterns.pattern1 c0 <> None \/
  search AuthPatterns.pattern2
    (sub AuthPatterns.pattern1 (fun _ => new_auth_code) c0 0) <> None ->
  contains (T "requireAdminRole") (AuthPatterns.step2 c0) = true /\
  length (AuthPatterns.step2 c0) < length c0.
Proof.
  destruct auth_min_len as [H1 H2]. unfold AuthPatterns.step2.
  set (c1 := sub AuthPatterns.pattern1 (fun _ => new_auth_code) c0 0).
  pose proof (sub_all_length _ _ c0 H1) as L1. fold c1 in L1.
  pose proof (sub_all_length _ _ c1 H2) as L2.
  intros H.
  destruct (search AuthPatterns.pattern2 c1) as [mt2|] eqn:E2.
  - split.
    + eapply contains_trans; [apply new_auth_code_names_helper|].
      eapply sub_all_contains; eauto.
    + destruct (finditer_search _ _ _ E2) as (ms & F). rewrite F in L2.
      simpl in L2. lia.
  - destruct H as [H|H]; [|congruence].
    destruct (search AuthPatterns.pattern1 c0) as [mt1|] eqn:E1;
      [|congruence].
    rewrite (sub_none _ _ _ _ E2). split.
    + eapply contains_trans; [apply new_auth_code_names_helper|].
      unfold c1. eapply sub_all_contains; eauto.
    + destruct (finditer_search _ _ _ E1) as (ms & F). rewrite F in L1.
      simpl in L1. lia.
Qed.

(** X2: in update_auth_patterns.py, when one of the two authorization
    patterns matches (pattern 1 on the text after the import step, or
    pattern 2 on the text after the substitution of pattern 1), the text
    that results names requireAdminRole and differs from the text read:
    the comparison with the original text never misses a conversion, and
    the new text is what goes to the file. *)
Theorem auth_conversion_is_written :
  forall content p w,
    read_file p w = (Val content, w, []) ->
    let c0 := AuthPatterns.step1 content in
    search AuthPatterns.pattern1 c0 <> None \/
    search AuthPatterns.pattern2
      (sub AuthPatterns.pattern1 (fun _ => new_auth_code) c0 0) <> None ->
    contains (T "requireAdminRole") (AuthPatterns.step2 c0) = true /\
    AuthPatterns.step2 c0 <> content /\
    writes (snd (AuthPatterns.update_file p w))
    = [(p, AuthPatterns.step2 c0)].
Proof.
  intros content p w R c0 H. unfold c0 in *. clear c0.
  destruct (auth_step2_converts _ H) as [Hc Hl].
  assert (Hne : AuthPatterns.step2 (AuthPatterns.step1 content) <> content).
  { intros E. destruct (contains (T "requireAdminRole") content) eqn:Q.
    - rewrite (auth_step1_helper _ Q) in Hl, E.
      rewrite E in Hl. lia.
    - rewrite E in Hc. congruence. }
  split; [exact Hc|]. split; [exact Hne|].
  unfold AuthPatterns.update_file, try_except, bind. rewrite R.
  apply str_eqb_neq in Hne. rewrite Hne. simpl.
  unfold write_file. destruct (w_write_err w p); reflexivity.
Qed.

(** X2, witness: the block of [legacy_route] is converted and written. *)
Lemma auth_conversion_witness :
  writes (snd (AuthPatterns.update_file route (one_file route legacy_route)))
  = [(route, AuthPatterns.step2 (AuthPatterns.step1 legacy_route))].
Proof.
  apply (auth_conversion_is_written legacy_route route
           (one_file route legacy_route) eq_refl).
  left. vm_compute. discriminate.
Defined.

(** ** update_auth_patterns_v2.py: what is written, and repeated runs *)

(** A loop that counted a substitution leaves the replacement text in. *)
Lemma while_sub_contains p : forall fuel content n c' n',
  AuthPatternsV2.while_sub fuel p content n = Some (c', n') ->
  (c' = content /\ n' = n) \/
  (n < n' /\ contains new_auth_code c' = true).
Proof.
  induction fuel as [|fuel IH]; intros content n c' n' H; [discriminate|].
  simpl in H. destruct (search p content) as [mt|] eqn:E.
  - right. apply IH in H. destruct H as [[-> ->]|[Hn Hc]].
    + split; [lia|]. rewrite (sub_once _ _ _ _ E).
      apply contains_middle.
    + split; [lia|exact Hc].
  - inversion H; subst. now left.
Qed.

Lemma run_loop_contains p st c' n' :
  AuthPatternsV2.run_loop p st = Some (c', n') ->
  (0 < snd st -> contains new_auth_code (fst st) = true) ->
  0 < n' -> contains new_auth_code c' = true.
Proof.
  unfold AuthPatternsV2.run_loop. intros H Hst Hn.
  apply while_sub_contains in H. destruct H as [[-> ->]|[_ Hc]]; auto.
Qed.

Lemma rewrite_contains content c n :
  AuthPatternsV2.rewrite content = Some (c, n) ->
  0 < n -> contains new_auth_code c = true.
Proof.
  unfold AuthPatternsV2.rewrite, AuthPatternsV2.opt_bind. intros H.
  destruct (AuthPatternsV2.run_loop AuthPatternsV2.pattern1 (content, 0))
    as [[c1 n1]|] eqn:E1; [|discriminate].
  destruct (AuthPatternsV2.run_loop AuthPatternsV2.pattern2 (c1, n1))
    as [[c2 n2]|] eqn:E2; [|discriminate].
  destruct (AuthPatternsV2.run_loop AuthPatternsV2.pattern3 (c2, n2))
    as [[c3 n3]|] eqn:E3; [|discriminate].
  pose proof (run_loop_contains _ _ _ _ E1) as H1.
  pose proof (run_loop_contains _ _ _ _ E2) as H2.
  pose proof (run_loop_contains _ _ _ _ E3) as H3.
  pose proof (run_loop_contains _ _ _ _ H) as H4.
  simpl in H1, H2, H3, H4.
  apply H4. intros. apply H3; auto. intros. apply H2; auto.
  intros. apply H1; auto. lia.
Qed.

(** What update_auth_patterns_v2.py does with a readable file. *)
Lemma v2_update_file_read p w content :
  read_file p w = (Val content, w, []) ->
  exists c n,
    AuthPatternsV2.rewrite content = Some (c, n) /\
    length c + n <= length content /\
    AuthPatternsV2.update_file p w =
    if 0 <? n then
      match w_write_err w p with
      | Some e =>
          (Val false, failed_write p c w,
           [EvWrite p c; EvPrint (error_line p e)])
      | None =>
          (Val true, store p c w,
           [EvWrite p c;
            EvPrint (CHECK_MARK ++ T " Updated " ++ p ++ T " (" ++
                     str_of_nat n ++ T " handler(s))")])
      end
    else
      (Val false, w,
       [EvPrint (WARNING_SIGN ++ T "  No patterns matched: " ++ p)]).
Proof.
  intros R. destruct (rewrite_total content) as (c & n & E & Hl).
  exists c, n. split; [exact E|]. split; [exact Hl|].
  unfold AuthPatternsV2.update_file, try_except, bind. rewrite R, E.
  destruct (0 <? n); [|reflexivity].
  unfold write_file. destruct (w_write_err w p); reflexivity.
Qed.

(** X3: every text update_auth_patterns_v2.py writes to a file is what
    its four loops made of the text read, contains the replacement code,
    and is shorter than the text read by at least one character for each
    handler it reports. *)
Theorem v2_written_text_is_shorter :
  forall p w q c,
    In (q, c) (writes (snd (AuthPatternsV2.update_file p w))) ->
    q = p /\
    exists content n,
      read_file p w = (Val content, w, []) /\
      AuthPatternsV2.rewrite content = Some (c, n) /\
      0 < n /\ length c + n <= length content /\
      contains new_auth_code c = true.
Proof.
  intros p w q c Hin.
  destruct (read_file_cases p w) as [[content R]|[e R]].
  - destruct (v2_update_file_read p w content R) as (c' & n & E & Hl & Hu).
    rewrite Hu in Hin. destruct (0 <? n) eqn:G.
    + apply Nat.ltb_lt in G.
      assert (Hq : (q, c) = (p, c')).
      { destruct (w_write_err w p); simpl in Hin;
          destruct Hin as [Hin|[]]; congruence. }
      inversion Hq; subst. split; [reflexivity|].
      exists content, n. repeat split; auto.
      apply (rewrite_contains content c' n E G).
    + simpl in Hin. destruct Hin.
  - unfold AuthPatternsV2.update_file, try_except, bind in Hin.
    rewrite R in Hin. simpl in Hin. destruct Hin.
Qed.

(** X3, witness: the write of the run on [Samples.nested2]. *)
Lemma v2_written_text_witness :
  exists content n,
    read_file route (one_file route Samples.nested2)
    = (Val content, one_file route Samples.nested2, []) /\
    AuthPatternsV2.rewrite content = Some (new_auth_code, n) /\
    0 < n /\ length new_auth_code + n <= length content /\
    contains new_auth_code new_auth_code = true.
Proof.
  apply (v2_written_text_is_shorter route (one_file route Samples.nested2)
           route new_auth_code).
  vm_compute. left. reflexivity.
Defined.

Lemma read_file_store p c w :
  w_read_err w p = None ->
  read_file p (store p c w) = (Val c, store p c w, []).
Proof.
  intros H. unfold read_file. simpl. now rewrite H, str_eqb_refl.
Qed.

(** Repeated runs on a file of [len] characters at most. *)
Lemma v2_runs_settle p : forall len w content,
  length content <= len ->
  w_read_err w p = None ->
  w_write_err w p = None ->
  read_file p w = (Val content, w, []) ->
  exists k, k <= length content /\
    AuthPatternsV2.update_file p (run_n AuthPatternsV2.update_file p k w)
    = (Val false, run_n AuthPatternsV2.update_file p k w,
       [EvPrint (WARNING_SIGN ++ T "  No patterns matched: " ++ p)]).
Proof.
  induction len as [|len IH]; intros w content Hlen Hr Hw R;
    destruct (v2_update_file_read p w content R) as (c & n & E & Hl & Hu);
    rewrite Hw in Hu; destruct (0 <? n) eqn:G;
    try (exists 0; split; [lia|exact Hu]);
    apply Nat.ltb_lt in G; [lia|].
  destruct (IH (store p c w) c ltac:(lia) Hr Hw (read_file_store p c w Hr))
    as (k & Hk & Hrun).
  exists (S k). split; [lia|]. cbn [run_n]. rewrite Hu. exact Hrun.
Qed.

(** X4: update_auth_patterns_v2.py, run again and again on a file that can
    be read and written, comes to rest: after at most as many runs as the
    file has characters, a run matches no pattern, reports so, writes
    nothing and leaves the file as it is. *)
Theorem v2_repeated_runs_come_to_rest :
  forall p w content,
    w_read_err w p = None ->
    w_write_err w p = None ->
    lookup p (w_files w) = Some content ->
    exists k, k <= length content /\
      AuthPatternsV2.update_file p (run_n AuthPatternsV2.update_file p k w)
      = (Val false, run_n AuthPatternsV2.update_file p k w,
         [EvPrint (WARNING_SIGN ++ T "  No patterns matched: " ++ p)]).
Proof.
  intros p w content Hr Hw L.
  apply (v2_runs_settle p (length content) w content (le_n _) Hr Hw).
  unfold read_file. now rewrite Hr, L.
Qed.

(** X4, witness: the runs on [Samples.nested3] (two of them write). *)
Lemma v2_repeated_runs_witness :
  exists k, k <= length Samples.nested3 /\
    AuthPatternsV2.update_file route
      (run_n AuthPatternsV2.update_file route k
         (one_file route Samples.nested3))
    = (Val false,
       run_n AuthPatternsV2.update_file route k
         (one_file route Samples.nested3),
       [EvPrint (WARNING_SIGN ++ T "  No patterns matched: " ++ route)]).
Proof.
  apply (v2_repeated_runs_come_to_rest route
           (one_file route Samples.nested3) Samples.nested3);
    reflexivity.
Defined.

(** ** The console report of version 2 *)

Lemma v2_update_file_line p w :
  exists b w' tr l,
    AuthPatternsV2.update_file p w = (Val b, w', tr) /\
    prints tr = [l] /\ same_files w w' /\
    is_updated_line l = b /\
    ((exists n, 0 < n /\ l = v2_updated_line p n) \/
     l = v2_unmatched_line p \/
     exists e, l = error_line p e).
Proof.
  destruct (read_file_cases p w) as [[content R]|[e R]].
  - destruct (v2_update_file_read p w content R) as (c & n & E & Hl & Hu).
    rewrite Hu. destruct (0 <? n) eqn:G.
    + apply Nat.ltb_lt in G. destruct (w_write_err w p) as [e|].
      * eexists false, _, _, (error_line p e).
        repeat split; eauto;
          apply (same_files_failed_write w w p _ content
                   (same_files_refl w) R).
      * eexists true, _, _, (v2_updated_line p n).
        repeat split; eauto;
          apply (same_files_store w w p _ content (same_files_refl w) R).
    + eexists false, w, _, (v2_unmatched_line p).
      repeat split; eauto; apply same_files_refl.
  - unfold AuthPatternsV2.update_file, try_except, bind. rewrite R. simpl.
    exists false, w, [EvPrint (error_line p e)], (error_line p e).
    repeat split; eauto; apply same_files_refl.
Qed.

Lemma v2_update_all_lines w0 : forall ps n w,
  same_files w0 w ->
  exists w' tr ls,
    AuthPatternsV2.update_all ps n w
    = (Val (n + length (filter is_updated_line ls)), w', tr) /\
    prints tr = ls /\ Forall2 (v2_fate_line w0) ps ls.
Proof.
  induction ps as [|p ps IH]; intros n w Hw.
  - exists w, [], []. simpl. unfold ret. rewrite Nat.add_0_r. auto.
  - destruct (lookup p (w_files w)) eqn:L.
    + destruct (v2_update_file_line p w)
        as (b & w1 & t1 & l & Hu & Hp & Hs & Hb & Hl).
      assert (Hex : lookup p (w_files w) <> None) by congruence.
      rewrite (scripts_update_all_step AuthPatternsV2.update_file
                 AuthPatternsV2.update_all p ps n w b w1 t1
                 ltac:(simpl; auto) Hex Hu).
      destruct (IH (if b then n + 1 else n) w1
                  (same_files_trans _ _ _ Hw Hs))
        as (w' & tr & ls & -> & Hpr & Hf).
      exists w', (t1 ++ tr), (l :: ls). simpl. rewrite Hb.
      split; [|split].
      * f_equal. f_equal. f_equal. destruct b; simpl; lia.
      * rewrite prints_app, Hp, Hpr. reflexivity.
      * constructor; auto. unfold v2_fate_line.
        destruct (lookup p (w_files w0)) eqn:L0; auto.
        apply Hw in L0. congruence.
    + rewrite (v2_update_all_missing _ _ _ _ L).
      destruct (IH n w Hw) as (w' & tr & ls & -> & Hpr & Hf).
      exists w', (EvPrint (not_found_line p) :: tr), (not_found_line p :: ls).
      simpl. split; [|split].
      * reflexivity.
      * now rewrite Hpr.
      * constructor; auto. unfold v2_fate_line.
        apply Hw in L. now rewrite L.
Qed.

(** X5: update_auth_patterns_v2.py prints its heading, then exactly one
    line for every candidate, in the order of the list (Updated with the
    number of handlers, which is at least one; No patterns matched; Error
    updating; or File not found for a path that does not exist), then the
    tally [Complete! Updated u/n files] with [n] the number of candidates
    and [u] the number of Updated lines; the run always gets there. *)
Theorem v2_main_reports_every_candidate :
  forall files_to_update w,
    exists w' tr ls,
      AuthPatternsV2.main files_to_update w = (Val tt, w', tr) /\
      Forall2 (v2_fate_line w) files_to_update ls /\
      prints tr =
        [ARROWS ++ T " Updating " ++ str_of_nat (length files_to_update) ++
         T " remaining admin route files..."]
        ++ ls ++
        [[LF] ++ SPARKLES ++ T " Complete! Updated " ++
         str_of_nat (length (filter is_updated_line ls)) ++ T "/" ++
         str_of_nat (length files_to_update) ++ T " files"].
Proof.
  intros ps w.
  destruct (v2_update_all_lines w ps 0 w (same_files_refl w))
    as (w' & tr & ls & Hu & Hpr & Hf).
  unfold AuthPatternsV2.main.
  erewrite bind_val; [|reflexivity].
  erewrite bind_val; [|exact Hu].
  unfold print. simpl.
  eexists w', _, ls. split; [reflexivity|]. split; [exact Hf|].
  cbn [prints]. rewrite prints_app, Hpr. reflexivity.
Qed.

(** ** The run of update_audit_logging.py *)

(** The first loop of [main] keeps the candidates that can be read and
    hold the legacy call, and does nothing to the outside. *)
Lemma audit_find_files ps : forall w,
  AuditLogging.find_files ps w = (Val (filter (has_audit_call w) ps), w, []).
Proof.
  induction ps as [|p ps IH]; intros w; [reflexivity|].
  cbn [AuditLogging.find_files filter].
  assert (H : try_except
                (content <- read_file p;;
                 ret (contains (T "prisma.auditLog.create") content))
                (fun _ => ret false) w
              = (Val (has_audit_call w p), w, [])).
  { unfold try_except, bind, has_audit_call.
    destruct (read_file_cases p w) as [[content R]|[e R]]; rewrite R;
      reflexivity. }
  rewrite (bind_val _ _ _ _ _ _ H), after_nil.
  rewrite (bind_val _ _ _ _ _ _ (IH w)), after_nil. reflexivity.
Qed.

Lemma audit_change_counts content c1 n1 c2 n2 :
  AuditLogging.step1 content 0 = (c1, n1) ->
  AuditLogging.step2 c1 n1 = (c2, n2) ->
  n2 <= 2.
Proof.
  unfold AuditLogging.step1, AuditLogging.step2. intros H1 H2.
  assert (n1 <= 1).
  { destruct (negb (contains (T "logAudit") content));
      [destruct (contains AuditLogging.anchor content)|];
      inversion H1; subst; lia. }
  destruct (negb (str_eqb _ c1)); inversion H2; subst; lia.
Qed.

(** ** No file is created *)

Lemma read_file_exists p w content :
  read_file p w = (Val content, w, []) -> lookup p (w_files w) <> None.
Proof.
  unfold read_file. destruct (w_read_err w p); [discriminate|].
  destruct (lookup p (w_files w)); [discriminate|discriminate].
Qed.

Lemma file_run_exists p w r :
  file_run p w r ->
  same_files w (world_after r) /\
  forall q c, In (q, c) (writes (snd r)) ->
    q = p /\ lookup p (w_files w) <> None.
Proof.
  destruct 1 as [e R|content ls R _|content c e R _ _|content c l R _ _];
    unfold world_after; simpl.
  - split; [apply same_files_refl|tauto].
  - rewrite writes_map_print. split; [apply same_files_refl|simpl; tauto].
  - split; [eapply same_files_failed_write; eauto using same_files_refl|].
    intros q c' [E|[]]. inversion E; subst.
    split; [reflexivity|]. eapply read_file_exists; eauto.
  - split; [eapply same_files_store; eauto using same_files_refl|].
    intros q c' [E|[]]. inversion E; subst.
    split; [reflexivity|]. eapply read_file_exists; eauto.
Qed.

Lemma world_after_after {A} t0 (r : outcome A * world * list event) :
  world_after (after t0 r) = world_after r.
Proof. now destruct r as [[o w] t]. Qed.

(** One step of a batch loop, with what it does to the files. *)
Lemma scripts_update_all_cons_files uf ua p ps n w :
  In (uf, ua) scripts ->
  exists t1 n1 w1,
    ua (p :: ps) n w = after t1 (ua ps n1 w1) /\
    same_files w w1 /\
    forall q c, In (q, c) (writes t1) ->
      q = p /\ lookup p (w_files w) <> None.
Proof.
  intros Hin.
  pose proof (scripts_file_run _ _ p w Hin) as Hrun.
  destruct (file_run_value _ _ _ Hrun) as (b & w1 & t1 & Hu).
  pose proof (file_run_exists _ _ _ Hrun) as [Hs Hq]. rewrite Hu in Hs, Hq.
  unfold world_after in Hs. simpl in Hs, Hq.
  assert (Hstep : ua (p :: ps) n w
                  = after t1 (ua ps (if b then n + 1 else n) w1) ->
                  exists t1 n1 w1,
                    ua (p :: ps) n w = after t1 (ua ps n1 w1) /\
                    same_files w w1 /\
                    forall q c, In (q, c) (writes t1) ->
                      q = p /\ lookup p (w_files w) <> None).
  { intros E. exists t1, (if b then n + 1 else n), w1. auto. }
  destruct (lookup p (w_files w)) eqn:L.
  - apply Hstep. apply (scripts_update_all_step uf ua); auto. congruence.
  - destruct Hin as [E|[E|[E|[]]]]; inversion E; subst; clear E.
    + apply Hstep. cbn [AuditLogging.update_all].
      now rewrite (bind_val _ _ _ _ _ _ Hu).
    + eexists _, n, w. split; [apply (auth_update_all_missing _ _ _ _ L)|].
      split; [apply same_files_refl|]. simpl. tauto.
    + eexists _, n, w. split; [apply (v2_update_all_missing _ _ _ _ L)|].
      split; [apply same_files_refl|]. simpl. tauto.
Qed.

Lemma scripts_update_all_files uf ua :
  In (uf, ua) scripts ->
  forall ps n w,
    same_files w (world_after (ua ps n w)) /\
    forall q c, In (q, c) (writes (snd (ua ps n w))) ->
      In q ps /\ lookup q (w_files w) <> None.
Proof.
  intros Hin ps. induction ps as [|p ps IH]; intros n w.
  - assert (E : ua [] n w = (Val n, w, []))
      by (destruct Hin as [E|[E|[E|[]]]]; inversion E; subst; reflexivity).
    rewrite E. unfold world_after. simpl.
    split; [apply same_files_refl|tauto].
  - destruct (scripts_update_all_cons_files uf ua p ps n w Hin)
      as (t1 & n1 & w1 & E & Hs & Hq).
    rewrite E, world_after_after, snd_after.
    destruct (IH n1 w1) as [IHs IHq]. split.
    + eapply same_files_trans; eauto.
    + intros q c Hc. rewrite writes_app in Hc. apply in_app_or in Hc.
      destruct Hc as [Hc|Hc].
      * destruct (Hq q c Hc) as [-> Hex]. split; [now left|exact Hex].
      * destruct (IHq q c Hc) as [Hin' Hex]. split; [now right|].
        intros L. apply Hex. now apply Hs.
Qed.

(** X7: none of the three scripts creates a file.  The loop of [main]
    writes only to paths of its candidate list that exist when it starts,
    and when it ends the same paths exist as before. *)
Theorem batch_creates_no_file :
  forall candidates n w,
    Forall
      (fun script : (str -> io bool) * (list str -> nat -> io nat) =>
         same_files w (world_after (snd script candidates n w)) /\
         forall q c, In (q, c) (writes (snd (snd script candidates n w))) ->
           In q candidates /\ lookup q (w_files w) <> None)
      scripts.
Proof.
  intros ps n w.
  assert (H : forall uf ua, In (uf, ua) scripts ->
            same_files w (world_after (ua ps n w)) /\
            forall q c, In (q, c) (writes (snd (ua ps n w))) ->
              In q ps /\ lookup q (w_files w) <> None)
    by (intros uf ua Hin; now apply (scripts_update_all_files uf ua Hin)).
  unfold scripts.
  apply Forall_cons;
    [apply (H AuditLogging.update_file AuditLogging.update_all);
     simpl; auto|].
  apply Forall_cons;
    [apply (H AuthPatterns.update_file AuthPatterns.update_all);
     simpl; auto|].
  apply Forall_cons;
    [apply (H AuthPatternsV2.update_file AuthPatternsV2.update_all);
     simpl; auto|].
  apply Forall_nil.
Qed.

(** ** The matcher and the texts a pattern stands for *)

Section MatcherLang.
Variable R : Type.

Lemma m_rep_sound cs (s : str) : forall lo g (k : str -> groups -> option R) x,
  m_rep cs lo s g k = Some x ->
  exists u s', s = u ++ s' /\ lo <= length u /\
               Forall (fun c => cs_mem cs c = true) u /\ k s' g = Some x.
Proof.
  induction s as [|c s IH]; intros lo g k x H; simpl in H.
  - destruct lo; [|discriminate]. exists [], []. auto.
  - destruct (cs_mem cs c) eqn:M.
    + destruct (m_rep cs (pred lo) s g k) eqn:E.
      * inversion H; subst.
        destruct (IH _ _ _ _ E) as (u & s' & -> & Hl & Hf & Hk).
        exists (c :: u), s'. simpl. repeat split; auto. lia.
      * destruct lo; [|discriminate]. exists [], (c :: s). auto.
    + destruct lo; [|discriminate]. exists [], (c :: s). auto.
Qed.

(** Soundness: what the matcher consumes is a text of the pattern. *)
Lemma m_sound (r : regex) : forall s g (k : str -> groups -> option R) x,
  m r s g k = Some x ->
  exists u s' g', s = u ++ s' /\ lang r u /\ k s' g' = Some x.
Proof.
  induction r as [|c|cs|r1 IH1 r2 IH2|r1 IH1 r2 IH2|r1 IH1|lo cs|i r1 IH1];
    intros s g k x H; simpl in H.
  - exists [], s, g. repeat split; auto. constructor.
  - destruct s as [|d s]; [discriminate|].
    destruct (Ascii.eqb_spec c d) as [->|]; [|discriminate].
    exists [d], s, g. repeat split; auto. constructor.
  - destruct s as [|d s]; [discriminate|].
    destruct (cs_mem cs d) eqn:M; [|discriminate].
    exists [d], s, g. repeat split; auto. now constructor.
  - apply IH1 in H. destruct H as (u1 & s1 & g1 & -> & Hl1 & H).
    apply IH2 in H. destruct H as (u2 & s2 & g2 & -> & Hl2 & H).
    exists (u1 ++ u2), s2, g2. rewrite <- app_assoc.
    repeat split; auto. now constructor.
  - destruct (m r1 s g k) eqn:E.
    + inversion H; subst. apply IH1 in E.
      destruct E as (u & s' & g' & -> & Hl & Hk).
      exists u, s', g'. repeat split; auto. now apply LAltL.
    + apply IH2 in H. destruct H as (u & s' & g' & -> & Hl & Hk).
      exists u, s', g'. repeat split; auto. now apply LAltR.
  - destruct (m r1 s g k) eqn:E.
    + inversion H; subst. apply IH1 in E.
      destruct E as (u & s' & g' & -> & Hl & Hk).
      exists u, s', g'. repeat split; auto. now apply LOptSome.
    + exists [], s, g. repeat split; auto. apply LOptNone.
  - apply m_rep_sound in H. destruct H as (u & s' & -> & Hl & Hf & Hk).
    exists u, s', g. repeat split; auto. now constructor.
  - apply IH1 in H. destruct H as (u & s' & g' & -> & Hl & Hk).
    eexists u, s', _. repeat split; eauto. now constructor.
Qed.

Lemma m_rep_complete cs (u : str) :
  Forall (fun c => cs_mem cs c = true) u ->
  forall lo s' g (k : str -> groups -> option R),
    lo <= length u ->
    k s' g <> None ->
    m_rep cs lo (u ++ s') g k <> None.
Proof.
  induction 1 as [|c u Hc Hu IH]; intros lo s' g k Hlo Hk.
  - simpl in Hlo. assert (lo = 0) by lia. subst lo. simpl.
    destruct s' as [|d s']; [exact Hk|]. simpl.
    destruct (cs_mem cs d); [|exact Hk].
    destruct (m_rep cs 0 s' g k); [discriminate|exact Hk].
  - simpl. rewrite Hc.
    specialize (IH (pred lo) s' g k ltac:(simpl in Hlo; lia) Hk).
    destruct (m_rep cs (pred lo) (u ++ s') g k); [discriminate|congruence].
Qed.

(** Completeness: where a text of the pattern stands and the continuation
    accepts what follows it, the matcher finds a match. *)
Lemma m_complete (r : regex) (u : str) :
  lang r u ->
  forall s' g (k : str -> groups -> option R),
    (forall g', k s' g' <> None) ->
    m r (u ++ s') g k <> None.
Proof.
  induction 1 as [|c|cs c Hc|r1 r2 u v _ IH1 _ IH2|r1 r2 u _ IH|r1 r2 u _ IH
                 |r u _ IH|r|lo cs u Hlo Hf|i r u _ IH];
    intros s' g k Hk; simpl.
  - apply Hk.
  - rewrite Ascii.eqb_refl. apply Hk.
  - rewrite Hc. apply Hk.
  - rewrite <- app_assoc. apply IH1. intros g'. now apply IH2.
  - specialize (IH s' g k Hk). destruct (m r1 (u ++ s') g k);
      [discriminate|congruence].
  - destruct (m r1 (u ++ s') g k); [discriminate|]. now apply IH.
  - specialize (IH s' g k Hk). destruct (m r (u ++ s') g k);
      [discriminate|congruence].
  - destruct (m r s' g k); [discriminate|apply Hk].
  - apply m_rep_complete; auto.
  - apply IH. intros g'. apply Hk.
Qed.
End MatcherLang.

Lemma match_here_lang r s adv s' g :
  match_here r s adv = Some (s', g) -> exists u, s = u ++ s' /\ lang r u.
Proof.
  unfold match_here. intros H. apply m_sound in H.
  destruct H as (u & s1 & g1 & -> & Hl & Hk).
  destruct (adv && (length s1 =? length (u ++ s1))); [discriminate|].
  inversion Hk; subst. eauto.
Qed.

Lemma match_here_complete r u s' :
  lang r u -> match_here r (u ++ s') false <> None.
Proof.
  intros H. unfold match_here. apply m_complete; [exact H|].
  intros g'. simpl. discriminate.
Qed.

(** The match a search returns is a text of the pattern. *)
Lemma search_go_lang r : forall s pre adv mt,
  search_go r pre s adv = Some mt -> lang r (m_text mt).
Proof.
  induction s as [|c s IH]; intros pre adv mt H; cbn [search_go] in H.
  - destruct (match_here r [] adv) as [[s' g]|] eqn:E; [|discriminate].
    apply match_here_lang in E. destruct E as (u & Hs & Hl).
    destruct u; [|discriminate]. simpl in Hs. subst s'.
    inversion H; subst. exact Hl.
  - destruct (match_here r (c :: s) adv) as [[s' g]|] eqn:E.
    + apply match_here_lang in E. destruct E as (u & Hs & Hl).
      rewrite Hs in H. rewrite firstn_consumed in H.
      inversion H; subst mt. exact Hl.
    + eapply IH; eauto.
Qed.

Lemma search_lang r s mt : search r s = Some mt -> lang r (m_text mt).
Proof. apply search_go_lang. Qed.

Lemma finditer_go_lang r : forall fuel s adv mt,
  In mt (finditer_go fuel r s adv) -> lang r (m_text mt).
Proof.
  induction fuel as [|fuel IH]; intros s adv mt H; simpl in H; [tauto|].
  destruct (search_go r [] s adv) as [mt0|] eqn:E; [|destruct H].
  destruct H as [<-|H]; [|eauto]. eapply search_go_lang; eauto.
Qed.

(** A search that fails: no text of the pattern occurs anywhere. *)
Lemma search_go_none r : forall s pre,
  search_go r pre s false = None ->
  forall a u, ~ occurs_at r s a u.
Proof.
  induction s as [|c s IH]; intros pre H a u [Hl [b Hs]];
    cbn [search_go] in H.
  - destruct (match_here r [] false) eqn:E; [destruct p; discriminate|].
    destruct a; [|discriminate]. destruct u; [|discriminate].
    apply (match_here_complete r [] [] Hl). exact E.
  - destruct (match_here r (c :: s) false) as [[s' g]|] eqn:E;
      [discriminate|].
    destruct a as [|d a].
    + simpl in Hs. rewrite Hs in E.
      apply (match_here_complete r u b Hl). exact E.
    + inversion Hs; subst. apply (IH _ H a u). split; eauto.
Qed.

Lemma search_none_no_occurrence r s :
  search r s = None -> forall a u, ~ occurs_at r s a u.
Proof. apply search_go_none. Qed.

(** The match a search returns is the leftmost: no text of the pattern
    occurs from an earlier position on. *)
Lemma search_go_leftmost r : forall s pre mt,
  search_go r pre s false = Some mt ->
  exists gap, m_pre mt = rev pre ++ gap /\
    forall a u, occurs_at r s a u -> length gap <= length a.
Proof.
  induction s as [|c s IH]; intros pre mt H; cbn [search_go] in H.
  - destruct (match_here r [] false) as [[s' g]|] eqn:E; [|discriminate].
    inversion H; subst. exists []. simpl. rewrite app_nil_r.
    split; [reflexivity|]. intros; lia.
  - destruct (match_here r (c :: s) false) as [[s' g]|] eqn:E.
    + inversion H; subst. exists []. simpl. rewrite app_nil_r.
      split; [reflexivity|]. intros; lia.
    + apply IH in H. destruct H as (gap & Hp & Hleft).
      exists (c :: gap). simpl in Hp. rewrite <- app_assoc in Hp.
      split; [exact Hp|]. intros a u [Hl [b Hs]].
      destruct a as [|d a].
      * simpl in Hs. rewrite Hs in E.
        exfalso. apply (match_here_complete r u b Hl). exact E.
      * inversion Hs; subst. simpl.
        specialize (Hleft a u (conj Hl (ex_intro _ b eq_refl))). lia.
Qed.

Lemma search_leftmost r s mt :
  search r s = Some mt ->
  forall a u, occurs_at r s a u -> length (m_pre mt) <= length a.
Proof.
  intros H. apply search_go_leftmost in H.
  destruct H as (gap & Hp & Hleft). simpl in Hp. now subst gap.
Qed.

(** Patterns of literals, and the literal ends of a pattern. *)
Lemma fixed_lang r : forall t u, fixed r = Some t -> lang r u -> u = t.
Proof.
  induction r as [|c|cs|r1 IH1 r2 IH2|r1 IH1 r2 IH2|r1 IH1|lo cs|i r1 IH1];
    intros t u Hf Hl; simpl in Hf; try discriminate;
    inversion Hl; subst.
  - congruence.
  - congruence.
  - destruct (fixed r1) as [x|]; [|discriminate].
    destruct (fixed r2) as [y|]; [|discriminate].
    inversion Hf; subst. f_equal; eauto.
  - eauto.
Qed.

Lemma prefix_of_lang r : forall u,
  lang r u -> exists v, u = prefix_of r ++ v.
Proof.
  induction r as [|c|cs|r1 IH1 r2 IH2|r1 IH1 r2 IH2|r1 IH1|lo cs|i r1 IH1];
    intros u Hl; simpl; try (now exists u);
    inversion Hl; subst.
  - now exists [].
  - destruct (fixed r1) as [x|] eqn:F.
    + rewrite (fixed_lang r1 x u0 F) by assumption.
      destruct (IH2 v) as (v' & ->); [assumption|].
      exists v'. now rewrite <- app_assoc.
    + destruct (IH1 u0) as (v' & ->); [assumption|].
      exists (v' ++ v). now rewrite <- app_assoc.
  - eauto.
Qed.

Lemma suffix_of_lang r : forall u,
  lang r u -> exists v, u = v ++ suffix_of r.
Proof.
  induction r as [|c|cs|r1 IH1 r2 IH2|r1 IH1 r2 IH2|r1 IH1|lo cs|i r1 IH1];
    intros u Hl; simpl; try (exists u; now rewrite app_nil_r);
    inversion Hl; subst.
  - now exists [].
  - destruct (fixed r2) as [y|] eqn:F.
    + rewrite (fixed_lang r2 y v F) by assumption.
      destruct (IH1 u0) as (v' & ->); [assumption|].
      exists v'. now rewrite <- app_assoc.
    + destruct (IH2 v) as (v' & ->); [assumption|].
      exists (u0 ++ v'). now rewrite <- app_assoc.
  - eauto.
Qed.

(** ** The spans the scripts replace *)

Lemma finditer_lang r s mt : In mt (finditer r s) -> lang r (m_text mt).
Proof. apply finditer_go_lang. Qed.

Lemma match_shape r (head foot : str) content mt :
  prefix_of r = head ++ skipn (length head) (prefix_of r) ->
  suffix_of r = removelast (suffix_of r) ++ foot ->
  search r content = Some mt \/ In mt (finditer r content) ->
  lang r (m_text mt) /\
  (exists v, m_text mt = head ++ v) /\
  (exists v, m_text mt = v ++ foot).
Proof.
  intros Hh Hf H.
  assert (Hl : lang r (m_text mt))
    by (destruct H; [eapply search_lang|eapply finditer_lang]; eauto).
  split; [exact Hl|]. split.
  - destruct (prefix_of_lang r _ Hl) as (v & ->). rewrite Hh.
    exists (skipn (length head) (prefix_of r) ++ v).
    now rewrite <- app_assoc.
  - destruct (suffix_of_lang r _ Hl) as (v & ->). rewrite Hf.
    exists (v ++ removelast (suffix_of r)). now rewrite <- app_assoc.
Qed.

(** X8: every span one of the scripts replaces is a text of the legacy
    pattern it was found with; it begins with the text the pattern begins
    with (the comment of the audit block, or the getServerSession call of
    an authorization block) and ends with a closing brace.  This holds for
    the match of a search (the loops of version 2) and for every match of
    a scan (the substitutions of the other two scripts). *)
Theorem replaced_spans_are_legacy_blocks :
  Forall
    (fun ph : regex * str =>
       forall content mt,
         search (fst ph) content = Some mt \/
         In mt (finditer (fst ph) content) ->
         lang (fst ph) (m_text mt) /\
         (exists v, m_text mt = snd ph ++ v) /\
         (exists v, m_text mt = v ++ T "}"))
    rewrite_patterns.
Proof.
  unfold rewrite_patterns.
  repeat (apply Forall_cons;
          [intros content mt; cbn [fst snd];
           apply match_shape; vm_compute; reflexivity|]).
  apply Forall_nil.
Qed.

(** X9: each loop of update_auth_patterns_v2.py ends with a text in which
    no text of its pattern occurs at any position; so the text the four
    loops return holds no occurrence of pattern 4. *)
Theorem v2_loop_leaves_no_occurrence :
  forall content,
    Forall
      (fun p =>
         forall n, exists c' n',
           AuthPatternsV2.run_loop p (content, n) = Some (c', n') /\
           forall a u, ~ occurs_at p c' a u)
      [AuthPatternsV2.pattern1; AuthPatternsV2.pattern2;
       AuthPatternsV2.pattern3; AuthPatternsV2.pattern4] /\
    exists c n,
      AuthPatternsV2.rewrite content = Some (c, n) /\
      forall a u, ~ occurs_at AuthPatternsV2.pattern4 c a u.
Proof.
  intros content.
  destruct v2_min_len as (H1 & H2 & H3 & H4).
  assert (Hloop : forall p st, length new_auth_code < min_len p ->
            exists c' n',
              AuthPatternsV2.run_loop p st = Some (c', n') /\
              forall a u, ~ occurs_at p c' a u).
  { intros p st Hp. destruct (run_loop_total p st Hp) as ([c' n'] & E).
    exists c', n'. split; [exact E|].
    unfold AuthPatternsV2.run_loop in E.
    apply (while_sub_spec _ Hp) in E.
    destruct E as (k & _ & _ & Hnone & _).
    now apply search_none_no_occurrence. }
  split.
  - repeat (apply Forall_cons; [intros n; apply Hloop; assumption|]).
    apply Forall_nil.
  - unfold AuthPatternsV2.rewrite.
    destruct (Hloop AuthPatternsV2.pattern1 (content, 0) H1)
      as (c1 & n1 & E1 & _).
    destruct (Hloop AuthPatternsV2.pattern2 (c1, n1) H2)
      as (c2 & n2 & E2 & _).
    destruct (Hloop AuthPatternsV2.pattern3 (c2, n2) H3)
      as (c3 & n3 & E3 & _).
    destruct (Hloop AuthPatternsV2.pattern4 (c3, n3) H4)
      as (c4 & n4 & E4 & Hnone).
    rewrite E1; simpl. rewrite E2; simpl. rewrite E3; simpl.
    exists c4, n4. split; [exact E4|exact Hnone].
Qed.

(** ** Where update_auth_patterns.py puts its import *)

Lemma lang_cat a b u v w :
  lang a u -> lang b v -> w = u ++ v -> lang (Cat a b) w.
Proof. intros Ha Hb ->. now constructor. Qed.

Lemma lang_Cat_inv a b w :
  lang (Cat a b) w -> exists u v, w = u ++ v /\ lang a u /\ lang b v.
Proof. intros H. inversion H; subst. eauto. Qed.

Lemma lang_Alt_inv a b w : lang (Alt a b) w -> lang a w \/ lang b w.
Proof. intros H. inversion H; subst; auto. Qed.

Lemma lang_Grp_inv i a w : lang (Grp i a) w -> lang a w.
Proof. intros H. now inversion H; subst. Qed.

Lemma lits_lang t : lang (lits t) t.
Proof.
  induction t as [|c t IH]; [constructor|].
  destruct t as [|d t]; [constructor|].
  change (lits (c :: d :: t)) with (Cat (Lit c) (lits (d :: t))).
  apply (lang_cat _ _ [c] (d :: t)); [constructor|exact IH|reflexivity].
Qed.

Lemma fixed_lits t : fixed (lits t) = Some t.
Proof.
  induction t as [|c t IH]; [reflexivity|].
  destruct t as [|d t]; [reflexivity|].
  change (lits (c :: d :: t)) with (Cat (Lit c) (lits (d :: t))).
  cbn [fixed]. now rewrite IH.
Qed.

Lemma lit_lang (s : string) u : lang (lit s) u -> u = T s.
Proof. apply fixed_lang, fixed_lits. Qed.

(** The anchor pattern stands for the two import lines, and nothing
    else. *)
Lemma next_import_lang u :
  lang AuthPatterns.next_import u <-> u = next_import1 \/ u = next_import2.
Proof.
  unfold AuthPatterns.next_import. cbn [seq]. split.
  - intros H. apply lang_Grp_inv, lang_Cat_inv in H.
    destruct H as (u1 & v1 & -> & Ha & H).
    apply lang_Cat_inv in H. destruct H as (u2 & v2 & -> & Hb & Hc).
    rewrite (lit_lang _ _ Ha), (lit_lang _ _ Hc).
    apply lang_Alt_inv in Hb. destruct Hb as [Hb|Hb];
      rewrite (lit_lang _ _ Hb); [left|right]; reflexivity.
  - intros [-> | ->]; constructor.
    + apply (lang_cat _ _ (T "import { ")
               (T "NextRequest, NextResponse" ++ T " } from 'next/server';"));
        [apply lits_lang| |reflexivity].
      apply (lang_cat _ _ (T "NextRequest, NextResponse")
               (T " } from 'next/server';"));
        [apply LAltL; apply lits_lang|apply lits_lang|reflexivity].
    + apply (lang_cat _ _ (T "import { ")
               (T "NextResponse, NextRequest" ++ T " } from 'next/server';"));
        [apply lits_lang| |reflexivity].
      apply (lang_cat _ _ (T "NextResponse, NextRequest")
               (T " } from 'next/server';"));
        [apply LAltR; apply lits_lang|apply lits_lang|reflexivity].
Qed.

(** Group [i] of a pattern that is one group is the match. *)
Lemma match_here_grp i r s adv s' g :
  match_here (Grp i r) s adv = Some (s', g) ->
  group_lookup i g = Some (firstn (length s - length s') s).
Proof.
  unfold match_here. simpl. intros H. apply m_inv in H.
  destruct H as (u & s1 & g1 & _ & _ & Hk).
  destruct (adv && (length s1 =? length s)); [discriminate|].
  inversion Hk; subst. simpl. now rewrite Nat.eqb_refl.
Qed.

Lemma search_go_grp i r : forall s pre adv mt,
  search_go (Grp i r) pre s adv = Some mt ->
  group_lookup i (m_groups mt) = Some (m_text mt).
Proof.
  induction s as [|c s IH]; intros pre adv mt H; cbn [search_go] in H.
  - destruct (match_here (Grp i r) [] adv) as [[s' g]|] eqn:E;
      [|discriminate].
    apply match_here_grp in E. inversion H; subst. exact E.
  - destruct (match_here (Grp i r) (c :: s) adv) as [[s' g]|] eqn:E.
    + apply match_here_grp in E. inversion H; subst. exact E.
    + eapply IH; eauto.
Qed.

(** X10: when the text does not name requireAdminRole,
    update_auth_patterns.py first removes the two old import lines; then,
    if one of the two next/server import lines occurs in what is left, it
    inserts its import line on a new line directly after the first such
    occurrence, and nowhere else; if none occurs, it inserts nothing. *)
Theorem auth_import_goes_after_first_anchor :
  forall content,
    contains (T "requireAdminRole") content = false ->
    let c := sub AuthPatterns.old_import2 (fun _ => [])
               (sub AuthPatterns.old_import1 (fun _ => []) content 0) 0 in
    match search AuthPatterns.next_import c with
    | None =>
        AuthPatterns.step1 content = c /\
        contains next_import1 c = false /\
        contains next_import2 c = false
    | Some mt =>
        (m_text mt = next_import1 \/ m_text mt = next_import2) /\
        c = m_pre mt ++ m_text mt ++ m_rest mt /\
        AuthPatterns.step1 content =
        m_pre mt ++ m_text mt ++ [LF] ++ AuthPatterns.import_line ++
        m_rest mt /\
        forall a u b,
          u = next_import1 \/ u = next_import2 ->
          c = a ++ u ++ b -> length (m_pre mt) <= length a
    end.
Proof.
  intros content Hh c.
  assert (Hs : AuthPatterns.step1 content
               = sub AuthPatterns.next_import
                   (expand AuthPatterns.import_template) c 1)
    by (unfold AuthPatterns.step1; now rewrite Hh).
  destruct (search AuthPatterns.next_import c) as [mt|] eqn:E.
  - split; [apply next_import_lang; eapply search_lang; eauto|].
    split; [now apply search_inv in E|]. split.
    + rewrite Hs, (sub_once _ _ _ _ E). f_equal.
      unfold AuthPatterns.import_template. cbn [expand group].
      unfold AuthPatterns.next_import in E.
      rewrite (search_go_grp _ _ _ _ _ _ E).
      rewrite app_nil_r, <- app_assoc. reflexivity.
    + intros a u b Hu Hc.
      apply (search_leftmost _ _ _ E a u). split.
      * now apply next_import_lang.
      * eauto.
  - split; [rewrite Hs; now apply sub_none|].
    split.
    + destruct (contains next_import1 c) eqn:Q; [|reflexivity].
      apply contains_split in Q. destruct Q as (a & b & Hc).
      exfalso. apply (search_none_no_occurrence _ _ E a next_import1).
      split; [apply next_import_lang; now left|eauto].
    + destruct (contains next_import2 c) eqn:Q; [|reflexivity].
      apply contains_split in Q. destruct Q as (a & b & Hc).
      exfalso. apply (search_none_no_occurrence _ _ E a next_import2).
      split; [apply next_import_lang; now right|eauto].
Qed.

(** X10, witness: in [legacy_route] the import goes after the first line. *)
Lemma auth_import_witness :
  AuthPatterns.step1 legacy_route =
  lines ["import { NextRequest, NextResponse } from 'next/server';";
         "import { requireAdminRole } from '@/lib/auth/authorization';";
         "";
         "export async function GET(request: NextRequest) {"]%string
  ++ [LF] ++ T "    " ++ Samples.plain_block ++ [LF] ++
  lines ["    return NextResponse.json({ ok: true });"; "}"]%string.
Proof.
  pose proof (auth_import_goes_after_first_anchor legacy_route eq_refl) as H.
  cbv zeta in H.
  destruct (search AuthPatterns.next_import _) as [mt|] eqn:E.
  - destruct H as (_ & _ & H & _). rewrite H.
    vm_compute in E. inversion E; subst. vm_compute. reflexivity.
  - vm_compute in E. discriminate.
Defined.

(** ** The fields of the new audit call *)

Section MatcherGroups.
Variable R : Type.
Variable i : nat.

Lemma groups_step_refl r g :
  always_binds i r = false -> groups_step i r g g.
Proof. intros H. repeat split; auto. congruence. Qed.

Lemma m_sound_groups (r : regex) :
  forall s g (k : str -> groups -> option R) x,
    m r s g k = Some x ->
    exists u s' g',
      s = u ++ s' /\ lang r u /\ k s' g' = Some x /\ groups_step i r g g'.
Proof.
  induction r as [|c|cs|r1 IH1 r2 IH2|r1 IH1 r2 IH2|r1 IH1|lo cs|j r1 IH1];
    intros s g k x H.
  - simpl in H. exists [], s, g. split; [reflexivity|].
    split; [constructor|]. split; [exact H|now apply groups_step_refl].
  - simpl in H. destruct s as [|d s]; [discriminate|].
    destruct (Ascii.eqb_spec c d) as [->|]; [|discriminate].
    exists [d], s, g. split; [reflexivity|]. split; [constructor|].
    split; [exact H|now apply groups_step_refl].
  - simpl in H. destruct s as [|d s]; [discriminate|].
    destruct (cs_mem cs d) eqn:M; [|discriminate].
    exists [d], s, g. split; [reflexivity|]. split; [now constructor|].
    split; [exact H|now apply groups_step_refl].
  - simpl in H. apply IH1 in H.
    destruct H as (u1 & s1 & g1 & -> & L1 & H & G1a & G1b & G1c).
    apply IH2 in H.
    destruct H as (u2 & s2 & g2 & -> & L2 & H & G2a & G2b & G2c).
    exists (u1 ++ u2), s2, g2. rewrite <- app_assoc.
    split; [reflexivity|]. split; [now constructor|].
    split; [exact H|]. split; [|split].
    + intros t Ht. simpl. destruct (G2a t Ht) as [Ht1|(b & Hb & Hl)].
      * destruct (G1a t Ht1) as [Ht0|(b & Hb & Hl)]; [now left|].
        right. exists b. split; [apply in_or_app; now left|exact Hl].
      * right. exists b. split; [apply in_or_app; now right|exact Hl].
    + auto.
    + simpl. intros Hb. apply orb_prop in Hb. destruct Hb; auto.
  - simpl in H. destruct (m r1 s g k) eqn:E.
    + inversion H; subst. apply IH1 in E.
      destruct E as (u & s' & g' & -> & L & Hk & Ga & Gb & Gc).
      exists u, s', g'. split; [reflexivity|]. split; [now apply LAltL|].
      split; [exact Hk|]. split; [|split].
      * intros t Ht. destruct (Ga t Ht) as [|(b & Hb & Hl)]; [now left|].
        right. exists b. split; [simpl; apply in_or_app; now left|exact Hl].
      * exact Gb.
      * simpl. intros Hb. apply andb_prop in Hb. tauto.
    + apply IH2 in H.
      destruct H as (u & s' & g' & -> & L & Hk & Ga & Gb & Gc).
      exists u, s', g'. split; [reflexivity|]. split; [now apply LAltR|].
      split; [exact Hk|]. split; [|split].
      * intros t Ht. destruct (Ga t Ht) as [|(b & Hb & Hl)]; [now left|].
        right. exists b. split; [simpl; apply in_or_app; now right|exact Hl].
      * exact Gb.
      * simpl. intros Hb. apply andb_prop in Hb. tauto.
  - simpl in H. destruct (m r1 s g k) eqn:E.
    + inversion H; subst. apply IH1 in E.
      destruct E as (u & s' & g' & -> & L & Hk & Ga & Gb & Gc).
      exists u, s', g'. split; [reflexivity|]. split; [now apply LOptSome|].
      split; [exact Hk|]. split; [exact Ga|]. split; [exact Gb|].
      simpl. discriminate.
    + exists [], s, g. split; [reflexivity|]. split; [apply LOptNone|].
      split; [exact H|now apply groups_step_refl].
  - simpl in H. apply m_rep_sound in H.
    destruct H as (u & s' & -> & Hl & Hf & Hk).
    exists u, s', g. split; [reflexivity|]. split; [now constructor|].
    split; [exact Hk|now apply groups_step_refl].
  - simpl in H. apply IH1 in H.
    destruct H as (u & s' & g1 & -> & L & Hk & Ga & Gb & Gc).
    rewrite firstn_consumed in Hk.
    exists u, s', ((j, u) :: g1). split; [reflexivity|].
    split; [now constructor|]. split; [exact Hk|]. split; [|split].
    + intros t Ht. simpl in Ht |- *. destruct (i =? j).
      * inversion Ht; subst. right. exists r1. split; [now left|exact L].
      * destruct (Ga t Ht) as [|(b & Hb & Hl)]; [now left|].
        right. exists b. simpl. auto.
    + intros Hg. simpl. destruct (i =? j); [discriminate|auto].
    + simpl. intros Hb. destruct (i =? j); [discriminate|auto].
Qed.
End MatcherGroups.

(** Group [i] of a search result: set when the pattern always sets it, and
    then a text of one of the patterns inside the group. *)
Lemma search_go_group i r : forall s pre adv mt,
  search_go r pre s adv = Some mt ->
  (always_binds i r = true -> group_lookup i (m_groups mt) <> None) /\
  forall t, group_lookup i (m_groups mt) = Some t ->
    exists body, In body (group_bodies i r) /\ lang body t.
Proof.
  assert (Hm : forall s adv s' g,
            match_here r s adv = Some (s', g) ->
            (always_binds i r = true -> group_lookup i g <> None) /\
            forall t, group_lookup i g = Some t ->
              exists body, In body (group_bodies i r) /\ lang body t).
  { intros s adv s' g H. unfold match_here in H.
    apply (m_sound_groups _ i) in H.
    destruct H as (u & s1 & g1 & _ & _ & Hk & Ga & _ & Gc).
    destruct (adv && (length s1 =? length s)); [discriminate|].
    inversion Hk; subst. split; [exact Gc|].
    intros t Ht. destruct (Ga t Ht) as [Hn|Hb]; [discriminate|exact Hb]. }
  induction s as [|c s IH]; intros pre adv mt H; cbn [search_go] in H.
  - destruct (match_here r [] adv) as [[s' g]|] eqn:E; [|discriminate].
    inversion H; subst. simpl. eapply Hm; eauto.
  - destruct (match_here r (c :: s) adv) as [[s' g]|] eqn:E.
    + inversion H; subst. simpl. eapply Hm; eauto.
    + eapply IH; eauto.
Qed.

Lemma search_group_one r body s mt :
  group_bodies 1 r = [body] ->
  always_binds 1 r = true ->
  search r s = Some mt ->
  lang body (group mt 1).
Proof.
  intros Hb Ha H. destruct (search_go_group 1 r _ _ _ _ H) as [Hs Hl].
  simpl. destruct (group_lookup 1 (m_groups mt)) as [t|] eqn:E.
  - destruct (Hl t eq_refl) as (b & Hin & Hlang).
    rewrite Hb in Hin. destruct Hin as [<-|[]]. exact Hlang.
  - exfalso. now apply Hs.
Qed.

Lemma lang_rep_inv lo cs u :
  lang (Rep lo cs) u ->
  lo <= length u /\ Forall (fun c => cs_mem cs c = true) u.
Proof. intros H. inversion H; subst. auto. Qed.

Lemma lstrip_Forall (P : ascii -> Prop) s :
  Forall P s -> Forall P (lstrip s).
Proof.
  induction 1 as [|c s Hc Hs IH]; simpl; [constructor|].
  destruct (is_space c); [exact IH|now constructor].
Qed.

Lemma strip_Forall (P : ascii -> Prop) s :
  Forall P s -> Forall P (strip s).
Proof.
  intros H. unfold strip.
  apply Forall_rev, lstrip_Forall, Forall_rev, lstrip_Forall, H.
Qed.

Lemma word_group r s mt :
  group_bodies 1 r = [Rep 1 CsWord] ->
  always_binds 1 r = true ->
  search r s = Some mt -> word_text (group mt 1).
Proof.
  intros Hb Ha H. pose proof (search_group_one r _ s mt Hb Ha H) as Hl.
  apply lang_rep_inv in Hl. destruct Hl as [Hlen Hf]. split; [|exact Hf].
  intros E. rewrite E in Hlen. simpl in Hlen. lia.
Qed.

Lemma item_group r s mt :
  group_bodies 1 r = [Rep 1 (CsNot [","%char; LF])] ->
  always_binds 1 r = true ->
  search r s = Some mt -> one_line_item (strip (group mt 1)).
Proof.
  intros Hb Ha H. pose proof (search_group_one r _ s mt Hb Ha H) as Hl.
  apply lang_rep_inv in Hl. destruct Hl as [_ Hf].
  apply strip_Forall. eapply Forall_impl; [|exact Hf].
  intros c Hc. simpl in Hc. apply negb_true_iff in Hc.
  apply orb_false_elim in Hc. destruct Hc as [H1 H2].
  apply orb_false_elim in H2. destruct H2 as [H2 _].
  split; intros ->.
  - rewrite Ascii.eqb_refl in H1. discriminate.
  - rewrite Ascii.eqb_refl in H2. discriminate.
Qed.

(** The fields are not checked any further: a blank resourceId is taken
    as it is, and the new call then reads [resourceId: ,]. *)
Example new_call_field_can_be_empty :
  exists mt,
    search AuditLogging.pattern blank_id_block = Some mt /\
    fields_missing mt = false /\
    AuditLogging.replace_audit_log mt
    = AuditLogging.new_call (T "session.user.id") (T "UPDATE") (T "Order")
        [] (T "{}").
Proof.
  eexists. split; [vm_compute; reflexivity|].
  split; vm_compute; reflexivity.
Qed.

(** X11: when the three required fields can be extracted from a matched
    audit block, [replace_audit_log] returns the new logAudit call, built
    from fields of these shapes: the action and the resource are non-empty
    runs of word characters, so neither can end the quoted literal it is
    put in; the userId and the resourceId (the word undefined when the
    block has none) hold no comma and no line feed, so each ends where the
    call puts its comma.  Nothing more is checked: the userId or the
    resourceId can be empty or hold a brace or a parenthesis, and the call
    is then not well formed (see [new_call_field_can_be_empty]). *)
Theorem new_call_field_shapes :
  forall mt,
    fields_missing mt = false ->
    exists user_id action resource resource_id details,
      AuditLogging.replace_audit_log mt
      = AuditLogging.new_call user_id action resource resource_id details /\
      word_text action /\ word_text resource /\
      one_line_item user_id /\ one_line_item resource_id.
Proof.
  intros mt H. unfold fields_missing in H.
  unfold AuditLogging.replace_audit_log.
  destruct (search AuditLogging.user_id_re (group mt 1)) as [um|] eqn:Eu;
    [|discriminate].
  destruct (search AuditLogging.action_re (group mt 1)) as [am|] eqn:Ea;
    [|discriminate].
  destruct (search AuditLogging.resource_re (group mt 1)) as [rm|] eqn:Er;
    [|discriminate].
  eexists _, _, _, _, _. split; [reflexivity|].
  split; [apply (word_group AuditLogging.action_re _ _ eq_refl eq_refl Ea)|].
  split;
    [apply (word_group AuditLogging.resource_re _ _ eq_refl eq_refl Er)|].
  split;
    [apply (item_group AuditLogging.user_id_re _ _ eq_refl eq_refl Eu)|].
  destruct (search AuditLogging.resource_id_re (group mt 1)) as [im|] eqn:Ei.
  - apply (item_group AuditLogging.resource_id_re _ _ eq_refl eq_refl Ei).
  - repeat constructor; discriminate.
Qed.

(** X11, witness: the match of [good_block]. *)
Lemma new_call_field_shapes_witness :
  exists mt,
    search AuditLogging.pattern good_block = Some mt /\
    exists user_id action resource resource_id details,
      AuditLogging.replace_audit_log mt
      = AuditLogging.new_call user_id action resource resource_id details /\
      word_text action /\ word_text resource /\
      one_line_item user_id /\ one_line_item resource_id.
Proof.
  eexists. split; [vm_compute; reflexivity|].
  apply new_call_field_shapes. vm_compute. reflexivity.
Defined.

(** ** What the result of [update_file] tells *)

Lemma read_file_ok_no_error p w content :
  read_file p w = (Val content, w, []) -> w_read_err w p = None.
Proof.
  unfold read_file. destruct (w_read_err w p); [discriminate|reflexivity].
Qed.

Lemma file_run_result p w r :
  file_run p w r ->
  exists b w' tr,
    r = (Val b, w', tr) /\
    (b = false ->
     (writes tr = [] /\ w' = w) \/
     exists content c e,
       read_file p w = (Val content, w, []) /\ c <> content /\
       writes tr = [(p, c)] /\ w_write_err w p = Some e /\
       w' = failed_write p c w) /\
    (b = true ->
     exists content c,
       read_file p w = (Val content, w, []) /\ c <> content /\
       w' = store p c w /\ writes tr = [(p, c)] /\
       read_file p w' = (Val c, w', [])).
Proof.
  destruct 1 as [e R|content ls R _|content c e R Hne W|content c l R Hne W].
  - eexists _, _, _. split; [reflexivity|]. split; [auto|discriminate].
  - eexists _, _, _. split; [reflexivity|]. split; [|discriminate].
    intros _. left. now rewrite writes_map_print.
  - eexists _, _, _. split; [reflexivity|]. split; [|discriminate].
    intros _. right. exists content, c, e. auto.
  - eexists _, _, _. split; [reflexivity|]. split; [discriminate|].
    intros _. exists content, c. repeat split; auto.
    apply read_file_store. eapply read_file_ok_no_error; eauto.
Qed.

(** X12: in each of the three scripts the result of [update_file] tells
    what happened to the file.  True: the file was read, a text different
    from the one read was written to it, once, and reading the file again
    gives that text.  False: either nothing was written and the file
    system is as it was; or the one write of a changed text raised, and
    then the file system is the one [failed_write] gives: the file is as
    it was when [open] raised, and otherwise holds only the part of the
    new text that had been written, which can be none of it. *)
Theorem update_file_result_tells_the_write :
  forall p w,
    Forall
      (fun script : (str -> io bool) * (list str -> nat -> io nat) =>
         exists b w' tr,
           fst script p w = (Val b, w', tr) /\
           (b = false ->
            (writes tr = [] /\ w' = w) \/
            exists content c e,
              read_file p w = (Val content, w, []) /\ c <> content /\
              writes tr = [(p, c)] /\ w_write_err w p = Some e /\
              w' = failed_write p c w) /\
           (b = true ->
            exists content c,
              read_file p w = (Val content, w, []) /\ c <> content /\
              w' = store p c w /\ writes tr = [(p, c)] /\
              read_file p w' = (Val c, w', [])))
      scripts.
Proof.
  intros p w. unfold scripts.
  apply Forall_cons;
    [apply (file_run_result p w _ (audit_update_file_run p w))|].
  apply Forall_cons;
    [apply (file_run_result p w _ (auth_update_file_run p w))|].
  apply Forall_cons;
    [apply (file_run_result p w _ (v2_update_file_run p w))|].
  apply Forall_nil.
Qed.

(** ** How often update_audit_logging.py inserts its import *)

Lemma strip_prefix_length p s r :
  strip_prefix p s = Some r -> length p <= length s.
Proof.
  intros H. apply strip_prefix_app in H. subst s. rewrite length_app. lia.
Qed.

(** The length of a text after [replace]: every occurrence counted gives
    up the old text for the new one. *)
Lemma replace_go_length old new : forall s skip,
  old <> [] ->
  length (replace_go old new s skip) + count_go old s skip * length old
  + Nat.min skip (length s)
  = length s + count_go old s skip * length new.
Proof.
  induction s as [|c s IH]; intros skip Hold; [simpl; lia|].
  cbn [replace_go count_go]. destruct skip as [|k].
  - destruct (strip_prefix old (c :: s)) as [r|] eqn:E.
    + apply strip_prefix_length in E. simpl in E.
      specialize (IH (length old - 1) Hold).
      assert (length old <> 0) by (destruct old; simpl; congruence).
      rewrite length_app. simpl.
      rewrite Nat.min_l in IH by lia. lia.
    + specialize (IH 0 Hold). simpl. simpl in IH. lia.
  - specialize (IH k Hold). simpl. lia.
Qed.

Lemma count_go_none old : forall s skip,
  contains old s = false -> count_go old s skip = 0.
Proof.
  induction s as [|c s IH]; intros skip H; [reflexivity|].
  cbn [contains] in H. cbn [count_go].
  destruct (strip_prefix old (c :: s)); [discriminate|].
  destruct skip; auto.
Qed.

(** X13: when the text does not name logAudit, Step 1 of
    update_audit_logging.py inserts its import line, on a line of its own,
    once for every occurrence of the anchor text: the text grows by the
    length of that line and its line feed for each occurrence, and one
    change is counted when there is at least one. *)
Theorem audit_import_once_per_anchor :
  forall content n,
    contains (T "logAudit") content = false ->
    length (fst (AuditLogging.step1 content n))
    = length content
      + str_count AuditLogging.anchor content
        * (1 + length AuditLogging.import_line) /\
    snd (AuditLogging.step1 content n)
    = (if contains AuditLogging.anchor content then n + 1 else n).
Proof.
  intros content n H. unfold AuditLogging.step1. rewrite H. simpl negb.
  cbv iota.
  destruct (contains AuditLogging.anchor content) eqn:A; cbn [fst snd].
  - split; [|reflexivity].
    pose proof (replace_go_length AuditLogging.anchor
                  (AuditLogging.anchor ++ [LF] ++ AuditLogging.import_line)
                  content 0 ltac:(discriminate)) as L.
    unfold str_replace, str_count. rewrite !length_app in L.
    simpl Nat.min in L. simpl length in L |- *. lia.
  - split; [|reflexivity].
    unfold str_count. rewrite (count_go_none _ _ 0 A). lia.
Qed.

(** X13, witness: the two anchors of [two_anchors]. *)
Lemma audit_import_once_per_anchor_witness :
  length (fst (AuditLogging.step1 two_anchors 0))
  = length two_anchors + 2 * (1 + length AuditLogging.import_line).
Proof.
  destruct (audit_import_once_per_anchor two_anchors 0 eq_refl) as [H _].
  rewrite H. vm_compute. reflexivity.
Defined.

(* ================================================================== *)
(** * The console report, candidate by candidate *)

Lemma auth_update_file_fate p w :
  lookup p (w_files w) <> None ->
  exists l b w1 tr,
    AuthPatterns.update_file p w = (Val b, w1, tr) /\
    prints tr = [l] /\ auth_fate p w l b w1.
Proof.
  intros Hex. unfold AuthPatterns.update_file, try_except, bind.
  destruct (read_file_cases p w) as [[content R]|[e R]]; rewrite R.
  2:{ simpl. eexists _, _, _, _. split; [reflexivity|].
      split; [reflexivity|]. now apply AuthReadError. }
  destruct (str_eqb (AuthPatterns.step2 (AuthPatterns.step1 content)) content)
    eqn:G; simpl.
  - apply str_eqb_eq in G. eexists _, _, _, _. split; [reflexivity|].
    split; [reflexivity|]. now apply AuthUnchanged with content.
  - apply str_eqb_neq in G. unfold write_file.
    destruct (w_write_err w p) as [e|] eqn:W; simpl.
    + eexists _, _, _, _. split; [reflexivity|].
      split; [reflexivity|]. now apply AuthWriteError.
    + eexists _, _, _, _. split; [reflexivity|].
      split; [reflexivity|]. now apply AuthUpdated.
Qed.

(** The loop of update_auth_patterns.py. *)
Lemma auth_update_all_batch : forall ps n w,
  exists w' tr ls u,
    AuthPatterns.update_all ps n w = (Val (n + u), w', tr) /\
    prints tr = ls /\ auth_batch ps w ls u w'.
Proof.
  induction ps as [|p ps IH]; intros n w.
  - exists w, [], [], 0. simpl. unfold ret. rewrite Nat.add_0_r.
    repeat split. constructor.
  - destruct (lookup p (w_files w)) eqn:L.
    + assert (Hex : lookup p (w_files w) <> None) by congruence.
      destruct (auth_update_file_fate p w Hex)
        as (l & b & w1 & t1 & Hu & Hp & Hf).
      rewrite (scripts_update_all_step AuthPatterns.update_file
                 AuthPatterns.update_all p ps n w b w1 t1
                 ltac:(simpl; auto) Hex Hu).
      destruct (IH (if b then n + 1 else n) w1)
        as (w' & tr & ls & u & -> & Hpr & Hb).
      exists w', (t1 ++ tr), (l :: ls), ((if b then 1 else 0) + u). simpl.
      split; [|split].
      * f_equal. f_equal. f_equal. destruct b; lia.
      * rewrite prints_app, Hp, Hpr. reflexivity.
      * now apply AuthBatchCons with w1.
    + rewrite (auth_update_all_missing _ _ _ _ L).
      destruct (IH n w) as (w' & tr & ls & u & -> & Hpr & Hb).
      exists w', (EvPrint (not_found_line p) :: tr), (not_found_line p :: ls),
        u.
      simpl. split; [reflexivity|]. split; [now rewrite Hpr|].
      apply (AuthBatchCons p ps w (not_found_line p) false w ls u w');
        [now apply AuthNotFound|exact Hb].
Qed.

(** What a candidate gets is determined by the file system. *)
Lemma auth_fate_functional p w l1 b1 w1 l2 b2 w2 :
  auth_fate p w l1 b1 w1 -> auth_fate p w l2 b2 w2 ->
  l1 = l2 /\ b1 = b2 /\ w1 = w2.
Proof.
  assert (Hmiss : forall content, lookup p (w_files w) = None ->
                    read_file p w = (Val content, w, []) -> False).
  { intros content L R. now apply read_file_exists in R. }
  intros H1 H2.
  destruct H1 as [L|e Hex R|content R E|content e R Hne W|content R Hne W];
    destruct H2 as [L'|e' Hex' R'|content' R' E'|content' e' R' Hne' W'
                   |content' R' Hne' W'];
    try (exfalso; congruence);
    try (exfalso; eauto; fail);
    try (rewrite R in R'; inversion R'; subst);
    try (exfalso; congruence);
    try (rewrite W in W'; inversion W'; subst);
    auto.
Qed.

Lemma contains_suffix x a : contains x (a ++ x) = true.
Proof. rewrite <- (app_nil_r x) at 2. apply contains_middle. Qed.

Lemma auth_fate_names p w l b w1 :
  auth_fate p w l b w1 -> contains p l = true.
Proof.
  destruct 1; unfold not_found_line, error_line, unchanged_line, updated_line;
    rewrite ?app_assoc; try apply contains_suffix;
    rewrite <- ?app_assoc.
  - rewrite (app_assoc CROSS_MARK). apply contains_middle.
  - rewrite (app_assoc CROSS_MARK). apply contains_middle.
Qed.

Lemma auth_batch_reports ps w ls u w' :
  auth_batch ps w ls u w' ->
  length ls = length ps /\
  forall p, In p ps -> exists l, In l ls /\ contains p l = true.
Proof.
  induction 1 as [w|p ps w l b w1 ls u w' Hf Hb [IHl IHn]].
  - split; [reflexivity|]. intros p [].
  - split; [simpl; now rewrite IHl|].
    intros q [<-|Hq].
    + exists l. split; [now left|]. eapply auth_fate_names; eauto.
    + destruct (IHn q Hq) as (l' & Hin & Hc). exists l'. split; [now right|auto].
Qed.

(** What update_file of update_audit_logging.py does with a file. *)
Lemma audit_update_file_fate p w :
  exists ol b w1 tr,
    AuditLogging.update_file p w = (Val b, w1, tr) /\
    prints tr = add_line ol [] /\ audit_fate p w ol b w1.
Proof.
  unfold AuditLogging.update_file, try_except, bind.
  destruct (read_file_cases p w) as [[content R]|[e R]]; rewrite R.
  2:{ simpl. eexists (Some _), _, _, _. split; [reflexivity|].
      split; [reflexivity|]. now apply AuditReadError. }
  destruct (contains (T "prisma.auditLog.create") content) eqn:C;
    cbn [negb].
  2:{ simpl. eexists None, _, _, _. split; [reflexivity|].
      split; [reflexivity|]. now apply AuditNoCall with content. }
  pose proof (eq_refl (audit_rewrite content)) as E.
  unfold audit_rewrite at 1 in E.
  destruct (AuditLogging.step1 content 0) as [c1 n1] eqn:E1.
  destruct (AuditLogging.step2 c1 n1) as [c2 n2] eqn:E2.
  pose proof (audit_change_counts _ _ _ _ _ E1 E2) as Hn.
  destruct ((0 <? n2) && negb (str_eqb c2 content)) eqn:G.
  2:{ simpl. eexists None, _, _, _. split; [reflexivity|].
      split; [reflexivity|].
      apply andb_false_iff in G. destruct G as [G|G].
      - apply Nat.ltb_ge in G. assert (n2 = 0) by lia. subst n2.
        assert (c2 = content).
        { revert E1 E2. unfold AuditLogging.step1, AuditLogging.step2.
          destruct (negb (contains (T "logAudit") content));
            [destruct (contains AuditLogging.anchor content)|];
            intros E1; inversion E1; subst;
            destruct (negb (str_eqb _ _)); intros E2; inversion E2; subst;
            try reflexivity; lia. }
        subst c2. now apply AuditUnchanged with content 0.
      - apply negb_false_iff, str_eqb_eq in G. subst c2.
        now apply AuditUnchanged with content n2. }
  apply andb_prop in G. destruct G as [G Hne]. apply Nat.ltb_lt in G.
  apply negb_true_iff, str_eqb_neq in Hne.
  unfold write_file, print, ret. cbv beta.
  destruct (w_write_err w p) as [e|] eqn:W; simpl.
  - eexists (Some _), _, _, _. split; [reflexivity|].
    split; [reflexivity|]. now apply AuditWriteError with content n2.
  - eexists (Some _), _, _, _. split; [reflexivity|].
    split; [reflexivity|]. apply AuditUpdated with content; auto.
Qed.

Lemma audit_update_all_batch : forall ps n w,
  exists w' tr ls u,
    AuditLogging.update_all ps n w = (Val (n + u), w', tr) /\
    prints tr = ls /\ audit_batch ps w ls u w'.
Proof.
  induction ps as [|p ps IH]; intros n w.
  - exists w, [], [], 0. simpl. unfold ret. rewrite Nat.add_0_r.
    repeat split. constructor.
  - destruct (audit_update_file_fate p w) as (ol & b & w1 & t1 & Hu & Hp & Hf).
    cbn [AuditLogging.update_all]. rewrite (bind_val _ _ _ _ _ _ Hu).
    destruct (IH (if b then n + 1 else n) w1)
      as (w' & tr & ls & u & -> & Hpr & Hb).
    exists w', (t1 ++ tr), (add_line ol ls), ((if b then 1 else 0) + u).
    simpl. split; [|split].
    + f_equal. f_equal. f_equal. destruct b; lia.
    + rewrite prints_app, Hp, Hpr. now destruct ol.
    + now apply AuditBatchCons with w1.
Qed.

Lemma audit_batch_counts ps w ls u w' :
  audit_batch ps w ls u w' ->
  length ls <= length ps /\ u = length (filter is_updated_line ls).
Proof.
  induction 1 as [w|p ps w ol b w1 ls u w' Hf Hb [IHl IHu]].
  - split; reflexivity.
  - destruct Hf; simpl; split; try lia; rewrite IHu; reflexivity.
Qed.

Lemma audit_main_batch admin_routes w :
  let files := filter (has_audit_call w) admin_routes in
  exists w' tr ls u,
    AuditLogging.main admin_routes w = (Val tt, w', tr) /\
    audit_batch files w ls u w' /\
    prints tr =
      [ARROWS ++ T " Found " ++ str_of_nat (length files) ++
       T " files with audit logging..."]
      ++ ls ++
      [[LF] ++ SPARKLES ++ T " Complete! Updated " ++ str_of_nat u ++
       T "/" ++ str_of_nat (length files) ++ T " files"].
Proof.
  intros files.
  destruct (audit_update_all_batch files 0 w)
    as (w' & tr & ls & u & Hu & Hpr & Hb).
  unfold AuditLogging.main.
  rewrite (bind_val _ _ _ _ _ _ (audit_find_files admin_routes w)), after_nil.
  fold files.
  erewrite bind_val; [|reflexivity].
  erewrite bind_val; [|exact Hu].
  unfold print. simpl.
  eexists w', _, ls, u. split; [reflexivity|]. split; [exact Hb|].
  cbn [prints]. rewrite prints_app, Hpr. reflexivity.
Qed.

(** C9, amended.  update_auth_patterns.py runs to its end and prints its
    heading, then exactly one line for every candidate, in the order of
    the list, then the tally [Complete! Updated u/n files] with [n] the
    number of candidates and [u] the number of those updated.  The line of
    a candidate tells what happened to it when its turn came: File not
    found when the path does not exist; Error updating with the message
    when the read raised, or when the write of a changed text raised; No
    changes needed when the two steps leave the text read as it is;
    Updated when they change it and the new text was written.  So every
    candidate is named in some line.  update_audit_logging.py runs to its
    end as well, but counts and reports less: its total [k] is the number
    of candidates that can be read and hold prisma.auditLog.create; only
    these are processed, and such a file gets a line only when it is
    updated or raises an error, none when it is left as it is. *)
Theorem main_reports_candidate_fates :
  forall candidates w,
    (exists w' tr ls u,
       AuthPatterns.main candidates w = (Val tt, w', tr) /\
       auth_batch candidates w ls u w' /\
       prints tr =
         [ARROWS ++ T " Updating " ++ str_of_nat (length candidates) ++
          T " admin route files..."]
         ++ ls ++
         [[LF] ++ SPARKLES ++ T " Complete! Updated " ++ str_of_nat u ++
          T "/" ++ str_of_nat (length candidates) ++ T " files"] /\
       length ls = length candidates /\
       every_fate_reported candidates tr) /\
    (let files := filter (has_audit_call w) candidates in
     exists w' tr ls u,
       AuditLogging.main candidates w = (Val tt, w', tr) /\
       audit_batch files w ls u w' /\
       prints tr =
         [ARROWS ++ T " Found " ++ str_of_nat (length files) ++
          T " files with audit logging..."]
         ++ ls ++
         [[LF] ++ SPARKLES ++ T " Complete! Updated " ++ str_of_nat u ++
          T "/" ++ str_of_nat (length files) ++ T " files"]).
Proof.
  intros ps w. split; [|apply audit_main_batch].
  destruct (auth_update_all_batch ps 0 w)
    as (w' & tr & ls & u & Hu & Hpr & Hb).
  destruct (auth_batch_reports _ _ _ _ _ Hb) as [Hlen Hnamed].
  unfold AuthPatterns.main.
  erewrite bind_val; [|reflexivity].
  erewrite bind_val; [|exact Hu].
  unfold print. simpl.
  eexists w', _, ls, u. split; [reflexivity|]. split; [exact Hb|].
  assert (Hp : forall h t, prints (EvPrint h :: tr ++ [EvPrint t])
                           = h :: ls ++ [t]).
  { intros h t. cbn [prints]. rewrite prints_app, Hpr. reflexivity. }
  split; [apply Hp|]. split; [exact Hlen|].
  intros p Hin. destruct (Hnamed p Hin) as (l & Hl & Hc).
  exists l. split; [|exact Hc].
  rewrite Hp. right. apply in_or_app. now left.
Qed.

(** X6: a run of update_audit_logging.py over the candidates of the glob
    always ends.  It counts as found exactly the candidates that can be
    read and contain prisma.auditLog.create and prints [Found k files ...]
    for them.  Then it takes these files in turn, each in the file system
    the one before it left, and prints for each one line or none: Error
    updating with the message when the read raised or the write of a
    changed text raised; Updated with the number of steps that changed the
    text, one or two, when the new text was written; nothing when the file
    no longer holds the call or the two steps leave its text as it is.
    Last comes [Complete! Updated u/k files], where [u] is the number of
    files updated, which is the number of Updated lines. *)
Theorem audit_main_report :
  forall admin_routes w,
    let files := filter (has_audit_call w) admin_routes in
    exists w' tr ls u,
      AuditLogging.main admin_routes w = (Val tt, w', tr) /\
      audit_batch files w ls u w' /\
      length ls <= length files /\
      u = length (filter is_updated_line ls) /\
      prints tr =
        [ARROWS ++ T " Found " ++ str_of_nat (length files) ++
         T " files with audit logging..."]
        ++ ls ++
        [[LF] ++ SPARKLES ++ T " Complete! Updated " ++ str_of_nat u ++
         T "/" ++ str_of_nat (length files) ++ T " files"].
Proof.
  intros ps w files.
  destruct (audit_main_batch ps w) as (w' & tr & ls & u & Hm & Hb & Hp).
  fold files in Hm, Hb, Hp.
  destruct (audit_batch_counts _ _ _ _ _ Hb) as [Hl Hu].
  exists w', tr, ls, u. auto.
Qed.

(* ================================================================== *)
(** * Occurrences of a pattern around a replacement *)












(* ================================================================== *)
(** * A second run of update_auth_patterns_v2.py *)















(* ================================================================== *)
(** * A second run of update_auth_patterns.py *)




Section SubAll.
Variables q r : regex.
Hypothesis Hq : In q [AuthPatterns.pattern1; AuthPatterns.pattern2].


End SubAll.










(* ================================================================== *)
(** * A second run of update_audit_logging.py *)









Section MatcherInside.
Variable R : Type.

End MatcherInside.















(** On [mixed_route] the first run of each script does write. *)
Example mixed_route_first_runs :
  map (fun update_file : str -> io bool =>
         length (writes (snd (update_file route
                                (one_file route mixed_route)))))
    [AuthPatternsV2.update_file; AuthPatterns.update_file;
     AuditLogging.update_file]
  = [1; 1; 1].
Proof. vm_compute. reflexivity. Qed.
